(** * riptide-lib: the engine contract (riptide/engine/abstract.py)

    A shallow embedding of [riptide.engine.abstract] and of the part of the
    Python runtime its two default methods, [path_rm] and [path_copy], run
    on: exception classes and [try]/[except], and the host file system as
    [os], [shutil] and [distutils.dir_util] act on it.

    Modelling conventions.
    - A path is an absolute path in canonical form, the list of its
      components below [/] (the empty list is [/] itself).  Symbolic links,
      special files, ownership and permission bits are outside the model: a
      file-system object is a regular file or a directory.
    - A call is a function from the state before to an outcome (a value or
      a raised exception) and the state after; an exception leaves the
      changes made before it in place, as in Python.
    - [distutils.dir_util.copy_tree] and [shutil._rmtree_safe_fd] are
      recursive, one call per level of the tree.  The state carries the
      number of nested calls the interpreter's recursion limit still leaves
      room for where the helper is called; a tree with more levels than that
      raises [RecursionError], with the work done so far left in place. *)

From stdpp Require Import gmap strings list fin_maps.

Open Scope string_scope.
Open Scope list_scope.

(** ** Python exceptions *)

(** The exception classes the module defines ([ExecError]) or can meet
    through [os], [shutil] and [distutils], with the builtin hierarchy. *)
Inductive pyclass :=
  | BaseException
  | Exception
  | OSError
  | PermissionError
  | FileNotFoundError
  | FileExistsError
  | NotADirectoryError
  | IsADirectoryError
  | ShutilError
  | SameFileError
  | DistutilsError
  | DistutilsFileError
  | RuntimeError
  | RecursionError
  | ExecError.

#[global] Instance pyclass_eq_dec : EqDecision pyclass.
Proof. solve_decision. Defined.

(** The base named in each class statement; [class ExecError(BaseException)]
    is line 15 of abstract.py. *)
Definition superclass (c : pyclass) : option pyclass :=
  match c with
  | BaseException => None
  | Exception => Some BaseException
  | OSError => Some Exception
  | PermissionError => Some OSError
  | FileNotFoundError => Some OSError
  | FileExistsError => Some OSError
  | NotADirectoryError => Some OSError
  | IsADirectoryError => Some OSError
  | ShutilError => Some OSError
  | SameFileError => Some ShutilError
  | DistutilsError => Some Exception
  | DistutilsFileError => Some DistutilsError
  | RuntimeError => Some Exception
  | RecursionError => Some RuntimeError
  | ExecError => Some BaseException
  end.

(** The class followed by its bases, at most [n] steps up. *)
Fixpoint bases_upto (n : nat) (c : pyclass) : list pyclass :=
  c :: match n with
       | O => []
       | S k => match superclass c with
                | Some d => bases_upto k d
                | None => []
                end
       end.

(** Method resolution order (single inheritance: the chain of bases). *)
Definition mro (c : pyclass) : list pyclass := bases_upto 15 c.

Definition issubclass (c d : pyclass) : bool := bool_decide (d ∈ mro c).

(** A raised exception: its class and the message it was built with. *)
Record exn := Exn { exn_class : pyclass; exn_msg : string }.

#[global] Instance exn_eq_dec : EqDecision exn.
Proof. solve_decision. Defined.

Inductive result (A : Type) :=
  | Ok (a : A)
  | Raise (e : exn).
Arguments Ok {A} a.
Arguments Raise {A} e.

(** [try: body except cls as e: handler(e)] over an outcome and a state. *)
Definition try_except {S A : Type} (body : result A * S) (cls : pyclass)
    (handler : exn → S → result A * S) : result A * S :=
  match body with
  | (Raise e, s) => if issubclass (exn_class e) cls then handler e s else (Raise e, s)
  | ok => ok
  end.

(** ** Module constants *)

(** Line 12: the engine has to make the host reachable under this hostname. *)
Definition RIPTIDE_HOST_HOSTNAME : string := "host.riptide.internal".

(** ** Paths and projects *)

Abbreviation pathname := (list string).

(** How a path prints in an f-string. *)
Definition path_str (p : pathname) : string := "/" +:+ String.concat "/" p.

(** [os.path.dirname] and [os.path.basename] on canonical paths; the base
    name of [/] is empty, so it contributes no component to a join. *)
Definition dirname (p : pathname) : pathname := removelast p.
Definition basename (p : pathname) : list string := option_list (last p).

(** Modelled from the spec: the Service and Command definitions of a project
    are built by configuration loading, which is not in src/; only the parts
    the contract names are kept. *)
Record Service := {
  service_image : string;
  service_roles : list string;
}.

Record Command := {
  command_image : option string;
  command_in_service : option string;
}.

(** Modelled from the spec: the Project object (riptide.config.document) is an
    external collaborator; it identifies a root directory, the services and
    commands of its app, and the linked projects. *)
Record Project := {
  project_name : string;
  project_root : pathname;
  services : list (string * Service);
  commands : list (string * Command);
  links : list string;
}.

(** Modelled from the spec: riptide.config.files.path_in_project is imported
    by abstract.py but is not in src/.  True iff the canonicalized path is
    equal to or a descendant of the project's root directory. *)
Definition path_in_project (p : pathname) (project : Project) : bool :=
  bool_decide (project_root project `prefix_of` p).

(** ** The host file system *)

Inductive inode :=
  | File (data : string)
  | Dir.

#[global] Instance inode_eq_dec : EqDecision inode.
Proof. solve_decision. Defined.

(** The state a call runs in: the file system, a finite map from the paths
    that exist to what is there; [distutils.dir_util._path_created], the
    module-level memo of the directories [mkpath] has created; and the
    recursion budget: how many nested calls of a recursive library function
    ([copy_tree], [_rmtree_safe_fd]) fit below the frame of the caller before
    the interpreter's recursion limit is hit. *)
Record world := World {
  fs : gmap pathname inode;
  path_created : gset pathname;
  recursion_limit : nat;
}.

Definition set_fs (m : gmap pathname inode) (w : world) : world :=
  World m (path_created w) (recursion_limit w).

Definition add_path_created (p : pathname) (w : world) : world :=
  World (fs w) ({[p]} ∪ path_created w) (recursion_limit w).

(** Calls: state before to outcome and state after. *)
Definition M (A : Type) : Type := world → result A * world.

#[global] Instance M_ret : MRet M := λ A a w, (Ok a, w).

#[global] Instance M_bind : MBind M := λ A B k c w,
  match c w with
  | (Ok a, w1) => k a w1
  | (Raise e, w1) => (Raise e, w1)
  end.

Definition raise {A : Type} (e : exn) : M A := λ w, (Raise e, w).

(** Reading the state. *)
Definition gets {A : Type} (f : world → A) : M A := λ w, (Ok (f w), w).

(** *** errno and the OSError subclasses *)

Inductive errno :=
  ENOENT | ENOTDIR | EISDIR | EEXIST | EBUSY | ENOTEMPTY | EACCES | EPERM.

Definition strerror (e : errno) : string :=
  match e with
  | ENOENT => "No such file or directory"
  | ENOTDIR => "Not a directory"
  | EISDIR => "Is a directory"
  | EEXIST => "File exists"
  | EBUSY => "Device or resource busy"
  | ENOTEMPTY => "Directory not empty"
  | EACCES => "Permission denied"
  | EPERM => "Operation not permitted"
  end.

(** The subclass of OSError Python raises for an errno (PEP 3151).  The
    system answers EACCES or EPERM where a permission is missing; their
    class is the one the path helpers raise themselves at the project
    boundary.  With permission bits outside the model, no call below
    produces these two. *)
Definition os_error (e : errno) : exn :=
  Exn match e with
      | ENOENT => FileNotFoundError
      | ENOTDIR => NotADirectoryError
      | EISDIR => IsADirectoryError
      | EEXIST => FileExistsError
      | EBUSY => OSError
      | ENOTEMPTY => OSError
      | EACCES => PermissionError
      | EPERM => PermissionError
      end (strerror e).

(** *** os and os.path *)

Definition stat (w : world) (p : pathname) : option inode := fs w !! p.

Definition os_path_exists (w : world) (p : pathname) : bool :=
  bool_decide (is_Some (stat w p)).

Definition os_path_isdir (w : world) (p : pathname) : bool :=
  bool_decide (stat w p = Some Dir).

Definition os_path_isfile (w : world) (p : pathname) : bool :=
  match stat w p with
  | Some (File _) => true
  | _ => false
  end.

(** Why resolving a path that is not there fails: a regular file on the way
    gives ENOTDIR, otherwise ENOENT. *)
Definition lookup_errno (w : world) (p : pathname) : errno :=
  if existsb (λ k, os_path_isfile w (take k p)) (seq 0 (length p))
  then ENOTDIR else ENOENT.

(** [os.remove] (= [os.unlink]). *)
Definition os_remove (p : pathname) : M unit := λ w,
  match stat w p with
  | Some (File _) => (Ok tt, set_fs (delete p (fs w)) w)
  | Some Dir => (Raise (os_error EISDIR), w)
  | None => (Raise (os_error (lookup_errno w p)), w)
  end.

(** [os.mkdir]. *)
Definition os_mkdir (p : pathname) : M unit := λ w,
  match stat w p with
  | Some _ => (Raise (os_error EEXIST), w)
  | None =>
      if os_path_isdir w (dirname p)
      then (Ok tt, set_fs (<[p := Dir]> (fs w)) w)
      else (Raise (os_error (lookup_errno w p)), w)
  end.

(** The entry name of [q] when it lies directly in [p]. *)
Definition child_name (p q : pathname) : option string :=
  match last q with
  | Some n => if decide (dirname q = p) then Some n else None
  | None => None
  end.

(** [os.listdir]: the names in a directory, in no particular order. *)
Definition os_listdir (p : pathname) : M (list string) := λ w,
  match stat w p with
  | Some Dir => (Ok (omap (child_name p) (map_to_list (fs w)).*1), w)
  | Some (File _) => (Raise (os_error ENOTDIR), w)
  | None => (Raise (os_error (lookup_errno w p)), w)
  end.

(** [os.rmdir]: removes an empty directory; [/] is busy. *)
Definition os_rmdir (p : pathname) : M unit := λ w,
  match stat w p with
  | Some Dir =>
      if decide (p = []) then (Raise (os_error EBUSY), w)
      else match omap (child_name p) (map_to_list (fs w)).*1 with
           | [] => (Ok tt, set_fs (delete p (fs w)) w)
           | _ :: _ => (Raise (os_error ENOTEMPTY), w)
           end
  | Some (File _) => (Raise (os_error ENOTDIR), w)
  | None => (Raise (os_error (lookup_errno w p)), w)
  end.

(** [open(p, 'rb').read()]. *)
Definition read_file (p : pathname) : M string := λ w,
  match stat w p with
  | Some (File data) => (Ok data, w)
  | Some Dir => (Raise (os_error EISDIR), w)
  | None => (Raise (os_error (lookup_errno w p)), w)
  end.

(** [open(p, 'wb').write(data)]: creates the file or truncates it. *)
Definition write_file (p : pathname) (data : string) : M unit := λ w,
  match stat w p with
  | Some Dir => (Raise (os_error EISDIR), w)
  | Some (File _) => (Ok tt, set_fs (<[p := File data]> (fs w)) w)
  | None =>
      if os_path_isdir w (dirname p)
      then (Ok tt, set_fs (<[p := File data]> (fs w)) w)
      else (Raise (os_error (lookup_errno w p)), w)
  end.

(** [os.path.samefile], with shutil's [except OSError: return False]. *)
Definition samefile (w : world) (p q : pathname) : bool :=
  os_path_exists w p && bool_decide (p = q).

(** *** shutil *)

(** The loop of [_rmtree_safe_fd] over the entries of [p]: a directory is
    emptied by [recur], which is [_rmtree_safe_fd] itself one level deeper,
    and removed with [os.rmdir]; anything else is unlinked.  [onerror]
    re-raises, so the first error ends the loop. *)
Fixpoint rm_entries (recur : pathname → M unit) (p : pathname)
    (names : list string) : M unit :=
  match names with
  | [] => mret tt
  | n :: rest =>
      isd ← gets (λ w, os_path_isdir w (p ++ [n]));
      (if isd : bool then recur (p ++ [n]);; os_rmdir (p ++ [n])
       else os_remove (p ++ [n]));;
      rm_entries recur p rest
  end.

(** [shutil._rmtree_safe_fd]: lists the directory and removes its entries,
    [depth] calls deep at most. *)
Fixpoint _rmtree_safe_fd (depth : nat) (p : pathname) : M unit :=
  match depth with
  | O => raise (Exn RecursionError "maximum recursion depth exceeded")
  | S depth' =>
      names ← os_listdir p;
      rm_entries (_rmtree_safe_fd depth') p names
  end.

(** [shutil.rmtree(p)] with the default [ignore_errors=False]: the first
    error is raised, and what was removed before it stays removed.  The
    path is looked up ([os.lstat]), its tree emptied and the directory
    itself removed; [/] is emptied and then fails on the final
    [os.rmdir]. *)
Definition shutil_rmtree (p : pathname) : M unit := λ w,
  match stat w p with
  | None => (Raise (os_error (lookup_errno w p)), w)
  | Some _ => (_rmtree_safe_fd (recursion_limit w) p;; os_rmdir p) w
  end.

(** [shutil.copyfile]. *)
Definition shutil_copyfile (src dst : pathname) : M unit := λ w,
  if samefile w src dst
  then (Raise (Exn SameFileError
                 (path_str src +:+ " and " +:+ path_str dst +:+ " are the same file")), w)
  else (data ← read_file src; write_file dst data) w.

(** [shutil.copy2]: into [dst] under the source's base name when [dst] is a
    directory; the metadata [copystat] carries over is not modelled. *)
Definition shutil_copy2 (src dst : pathname) : M unit := λ w,
  let dst := if os_path_isdir w dst then dst ++ basename src else dst in
  shutil_copyfile src dst w.

(** *** distutils.file_util and distutils.dir_util *)

Definition distutils_file_error (msg : string) : exn := Exn DistutilsFileError msg.

(** [try: c except OSError as e: raise DistutilsFileError(msg % e.strerror)] *)
Definition wrap_os_error {A : Type} (c : M A) (msg : string) : M A := λ w,
  try_except (c w) OSError
    (λ e, raise (distutils_file_error (msg +:+ ": " +:+ exn_msg e))).

(** [distutils.file_util._copy_file_contents]: an existing destination is
    unlinked first, then written anew. *)
Definition _copy_file_contents (src dst : pathname) : M unit :=
  data ← wrap_os_error (read_file src) ("could not open " +:+ path_str src);
  there ← gets (λ w, os_path_exists w dst);
  (if there : bool
   then wrap_os_error (os_remove dst) ("could not delete " +:+ path_str dst)
   else mret tt);;
  wrap_os_error (write_file dst data) ("could not create " +:+ path_str dst).

(** [distutils.file_util.copy_file] as [copy_tree] calls it ([update=0], no
    link, no dry run); mode and times are not modelled. *)
Definition copy_file (src dst : pathname) : M unit :=
  isf ← gets (λ w, os_path_isfile w src);
  if negb isf
  then raise (distutils_file_error
                ("can't copy " +:+ path_str src +:+ ": doesn't exist or not a regular file"))
  else
    isd ← gets (λ w, os_path_isdir w dst);
    _copy_file_contents src (if isd : bool then dst ++ basename src else dst).

(** The walk up in [mkpath]: the length of the longest prefix of [name], of
    at most [k] components, that is a directory ([/] when none is). *)
Fixpoint deepest_dir (w : world) (name : pathname) (k : nat) : nat :=
  match k with
  | O => O
  | S k' => if os_path_isdir w (take k name) then k else deepest_dir w name k'
  end.

(** The loop of [mkpath] over the components still to create below [head]. *)
Fixpoint mkpath_tails (head : pathname) (tails : list string) : M unit :=
  match tails with
  | [] => mret tt
  | d :: ds =>
      let head := head ++ [d] in
      cached ← gets (λ w, bool_decide (head ∈ path_created w));
      if cached : bool then mkpath_tails head ds
      else
        (λ w, try_except (os_mkdir head w) OSError
                (λ exc w1,
                   if negb (bool_decide (exn_class exc = FileExistsError)
                            && os_path_isdir w1 head)
                   then (Raise (distutils_file_error
                                  ("could not create " +:+ path_str head +:+ ": "
                                   +:+ exn_msg exc)), w1)
                   else (Ok tt, w1)));;
        (λ w, (Ok tt, add_path_created head w));;
        mkpath_tails head ds
  end.

(** [distutils.dir_util.mkpath]. *)
Definition mkpath (name : pathname) : M unit :=
  isd ← gets (λ w, os_path_isdir w name);
  if isd : bool then mret tt
  else
    cached ← gets (λ w, bool_decide (name ∈ path_created w));
    if cached : bool then mret tt
    else
      k ← gets (λ w, deepest_dir w name (length name - 1));
      mkpath_tails (take k name) (drop k name).

(** The loop of [copy_tree] over the listed names; [recur] is [copy_tree]
    itself, one level deeper. *)
Fixpoint copy_names (recur : pathname → pathname → M unit)
    (src dst : pathname) (names : list string) : M unit :=
  match names with
  | [] => mret tt
  | n :: rest =>
      (if String.prefix ".nfs" n then mret tt
       else
         isd ← gets (λ w, os_path_isdir w (src ++ [n]));
         if isd : bool then recur (src ++ [n]) (dst ++ [n])
         else copy_file (src ++ [n]) (dst ++ [n]));;
      copy_names recur src dst rest
  end.

(** [distutils.dir_util.copy_tree] with its defaults, [depth] calls deep at
    most. *)
Fixpoint copy_tree_rec (depth : nat) (src dst : pathname) : M unit :=
  match depth with
  | O => raise (Exn RecursionError "maximum recursion depth exceeded")
  | S depth' =>
      isd ← gets (λ w, os_path_isdir w src);
      if negb isd
      then raise (distutils_file_error
                    ("cannot copy tree " +:+ path_str src +:+ ": not a directory"))
      else
        names ← wrap_os_error (os_listdir src)
                  ("error listing files in " +:+ path_str src);
        mkpath dst;;
        copy_names (copy_tree_rec depth') src dst names
  end.

Definition copy_tree (src dst : pathname) : M unit := λ w,
  copy_tree_rec (recursion_limit w) src dst w.

(** ** riptide.engine.abstract: the default path helpers of AbstractEngine *)

(** [AbstractEngine.path_rm] (lines 267-283). *)
Definition path_rm (path : pathname) (project : Project) : M unit :=
  if negb (path_in_project path project)
  then raise (Exn PermissionError
                ("Tried to delete a file/directory that is not within the project: "
                 +:+ path_str path))
  else
    isf ← gets (λ w, os_path_isfile w path);
    if isf : bool then os_remove path else shutil_rmtree path.

(** [AbstractEngine.path_copy] (lines 285-298). *)
Definition path_copy (fromm to : pathname) (project : Project) : M unit :=
  if negb (path_in_project to project)
  then raise (Exn PermissionError
                ("Tried to copy into a path that is not within the project: "
                 +:+ path_str fromm +:+ " -> " +:+ path_str to))
  else
    isf ← gets (λ w, os_path_isfile w fromm);
    if isf : bool then shutil_copy2 fromm to else copy_tree fromm to.

(** ** Conditions on states that the statements below use *)

(** The file system is a tree: [/] is a directory, and whatever exists lies
    in a directory. *)
Definition fs_wf (w : world) : Prop :=
  stat w [] = Some Dir
  ∧ ∀ p n, is_Some (stat w (p ++ [n])) → stat w p = Some Dir.

(** The same, decided over the finitely many paths that exist. *)
Definition fs_wf_check (w : world) : bool :=
  os_path_isdir w []
  && forallb (λ q, match q with
                   | [] => true
                   | _ => os_path_isdir w (dirname q)
                   end) (map_to_list (fs w)).*1.

(** Every directory [mkpath] remembers having created is still there, as
    in an interpreter that has removed none of them since. *)
Definition memo_ok (w : world) : Prop :=
  ∀ p, p ∈ path_created w → stat w p = Some Dir.

(** No component is one of the NFS rename files [copy_tree] skips. *)
Definition nfs_free (r : list string) : bool :=
  forallb (λ n, negb (String.prefix ".nfs" n)) r.

(** [w'] differs from [w] outside of [dst] by nothing but directories on
    the way to [dst] that were missing and now exist. *)
Definition changes_within (dst : pathname) (w w' : world) : Prop :=
  ∀ q, ¬ dst `prefix_of` q →
       stat w' q = stat w q
       ∨ (q `prefix_of` dst ∧ stat w q = None ∧ stat w' q = Some Dir).

(** [w'] differs from [w] at [p] and below it at most, and is a tree when
    [w] is; the memo of [mkpath] and the recursion budget are the same. *)
Definition only_below (p : pathname) (w w' : world) : Prop :=
  (∀ q, ¬ p `prefix_of` q → stat w' q = stat w q)
  ∧ (fs_wf w → fs_wf w')
  ∧ path_created w' = path_created w
  ∧ recursion_limit w' = recursion_limit w.

(** The length of the longest path that exists. *)
Definition fs_depth (w : world) : nat :=
  foldr Nat.max O (length <$> (map_to_list (fs w)).*1).

(** When [copy_tree src dst] can run to its end in [w] with [depth] calls
    to spare: [src] is a directory nested less than [depth] deep, neither
    path lies at or below the other, no regular file is in the way of
    [dst], and no entry to copy meets one that [dst] already has. *)
Definition tree_copyable (depth : nat) (src dst : pathname) (w : world) : Prop :=
  fs_wf w ∧ memo_ok w ∧ stat w src = Some Dir
  ∧ (∀ r, stat w (src ++ r) = Some Dir → (length r < depth)%nat)
  ∧ ¬ src `prefix_of` dst ∧ ¬ dst `prefix_of` src
  ∧ (∀ q data, q `prefix_of` dst → stat w q ≠ Some (File data))
  ∧ (∀ n, String.prefix ".nfs" n = false →
          is_Some (stat w (src ++ [n])) → stat w (dst ++ [n]) = None).

(** What copying the tree at [src] over [dst] turns [w] into: [dst] and the
    directories above it exist; below [dst], whatever [src] has and is not
    skipped is there, the rest of [dst] is kept; nothing else changes. *)
Definition tree_copied (src dst : pathname) (w w' : world) : Prop :=
  fs_wf w' ∧ memo_ok w' ∧ recursion_limit w' = recursion_limit w
  ∧ (∀ q, q `prefix_of` dst → stat w' q = Some Dir)
  ∧ (∀ n r, stat w' (dst ++ n :: r)
            = (if nfs_free (n :: r) then stat w (src ++ n :: r) else None)
              ∪ stat w (dst ++ n :: r))
  ∧ (∀ q, ¬ dst `prefix_of` q → ¬ q `prefix_of` dst → stat w' q = stat w q).

(** ** The abstract methods of the contract

    [AbstractEngine] declares [start_project], [stop_project] and
    [pull_images] without a body; a backend supplies them.  The definitions
    of this part follow the contract's words. *)

(** Modelled from the spec: the states of a service (section 4.1, state
    machine); no backend implementing them is in src/. *)
Inductive ServiceState := Stopped | Starting | Running | Stopping.

#[global] Instance ServiceState_eq_dec : EqDecision ServiceState.
Proof. solve_decision. Defined.

(** Modelled from the spec: the errors of the contract's taxonomy (section 7)
    that the methods modelled here raise; their classes are not in src/. *)
Inductive ContractError := NotFoundError | BackendExecutionError.

Inductive outcome (A : Type) :=
  | Returned (a : A)
  | Failed (err : ContractError).
Arguments Returned {A} a.
Arguments Failed {A} err.

(** Modelled from the spec: an OperationResult (StartStopResultStep, imported
    from riptide.engine.results, not in src/): the target, a progress step or
    a terminal success or failure, and an optional message. *)
Inductive ResultStatus :=
  | Progress (st : ServiceState)
  | Success
  | Failure.

Record OperationResult := {
  target : string;
  status_of : ResultStatus;
  message : option string;
}.

Definition is_terminal (r : OperationResult) : bool :=
  match status_of r with
  | Progress _ => false
  | _ => true
  end.

Definition success (name : string) : OperationResult :=
  {| target := name; status_of := Success; message := None |}.

(** Modelled from the spec: what a backend observes and keeps: the state of
    each service by (project, service), one entry per container it has
    created, and the images in its local store. *)
Record engine := {
  service_states : gmap (string * string) ServiceState;
  containers : list (string * string);
  local_images : gset string;
}.

(** Modelled from the spec: the world a backend drives: the images the
    remote repository has, the images whose transfer the runtime fails at
    for a reason of its own (daemon or registry out of reach), and the
    services whose container the runtime fails to start. *)
Record backend := {
  remote_images : gset string;
  broken_images : gset string;
  failing_services : gset string;
}.

Definition state_of (e : engine) (project : Project) (name : string) : ServiceState :=
  default Stopped (service_states e !! (project_name project, name)).

Definition set_state (project : Project) (name : string) (st : ServiceState)
    (e : engine) : engine :=
  {| service_states := <[(project_name project, name) := st]> (service_states e);
     containers := containers e;
     local_images := local_images e |}.

Definition add_container (project : Project) (name : string) (e : engine) : engine :=
  {| service_states := service_states e;
     containers := (project_name project, name) :: containers e;
     local_images := local_images e |}.

Definition remove_container (project : Project) (name : string) (e : engine) : engine :=
  {| service_states := service_states e;
     containers := filter (λ c, c ≠ (project_name project, name)) (containers e);
     local_images := local_images e |}.

Definition declared (project : Project) (name : string) : bool :=
  bool_decide (name ∈ (services project).*1).

(** Modelled from the spec: starting one service.  Already [Running]: a
    terminal success at once, nothing created.  Otherwise [Starting], then
    [Running] with its container, or a terminal failure that carries a
    message when the backend cannot start it. *)
Definition start_service (b : backend) (project : Project) (name : string)
    (e : engine) : list OperationResult * engine :=
  match state_of e project name with
  | Running => ([success name], e)
  | _ =>
      let starting := {| target := name; status_of := Progress Starting; message := None |} in
      if decide (name ∈ failing_services b)
      then ([starting;
             {| target := name; status_of := Failure;
                message := Some "the backend could not start the service" |}],
            set_state project name Stopped e)
      else ([starting; success name],
            add_container project name (set_state project name Running e))
  end.

(** Modelled from the spec: stopping one service.  Already [Stopped]: a
    terminal success at once.  Otherwise [Stopping], then [Stopped] with its
    container removed. *)
Definition stop_service (project : Project) (name : string)
    (e : engine) : list OperationResult * engine :=
  match state_of e project name with
  | Stopped => ([success name], e)
  | _ =>
      ([{| target := name; status_of := Progress Stopping; message := None |};
        success name],
       remove_container project name (set_state project name Stopped e))
  end.

(** The results of the targets one after the other, as the queue yields
    them. *)
Fixpoint each_service (step : string → engine → list OperationResult * engine)
    (names : list string) (e : engine) : list OperationResult * engine :=
  match names with
  | [] => ([], e)
  | name :: rest =>
      let (q1, e1) := step name e in
      let (q2, e2) := each_service step rest e1 in
      (q1 ++ q2, e2)
  end.

(** Modelled from the spec: [start_project] (declared at lines 20-44):
    [NotFoundError] for an unknown name, else the queue of results. *)
Definition start_project (b : backend) (project : Project) (names : list string)
    (e : engine) : outcome (list OperationResult) * engine :=
  if forallb (declared project) names
  then let (q, e') := each_service (start_service b project) names e in (Returned q, e')
  else (Failed NotFoundError, e).

(** Modelled from the spec: [stop_project] (declared at lines 46-55). *)
Definition stop_project (project : Project) (names : list string)
    (e : engine) : outcome (list OperationResult) * engine :=
  if forallb (declared project) names
  then let (q, e') := each_service (stop_service project) names e in (Returned q, e')
  else (Failed NotFoundError, e).

(** The images a project refers to, services first, each under the label
    the status report shows it with. *)
Definition image_targets (project : Project) : list (string * string) :=
  ((λ s : string * Service, ("service/" +:+ s.1, service_image s.2)) <$> services project)
  ++ omap (λ c : string * Command,
             (λ image, ("command/" +:+ c.1, image)) <$> command_image c.2)
          (commands project).

Definition pull_header (t : string * string) : string :=
  "[" +:+ t.1 +:+ "] Pulling '" +:+ t.2 +:+ "':".

Definition pull_warning : string := "    Warning: Image not found in repository.".

Definition pull_status (line_reset image : string) : string :=
  "    Pulling " +:+ image +:+ line_reset +:+ "    Done pulling " +:+ image.

(** Modelled from the spec: what asking the runtime for an image gives:
    the image, the answer that the repository does not have it, or a
    failure of the runtime itself. *)
Inductive Fetched := Image | NotInRepository | RuntimeFailure.

(** Modelled from the spec: a failure of the runtime comes before the
    answer of the repository. *)
Definition fetch_image (b : backend) (image : string) : Fetched :=
  if decide (image ∈ broken_images b) then RuntimeFailure
  else if decide (image ∈ remote_images b) then Image
  else NotInRepository.

(** The image is in the local store afterwards. *)
Definition store_image (image : string) (e : engine) : engine :=
  {| service_states := service_states e;
     containers := containers e;
     local_images := {[image]} ∪ local_images e |}.

(** Modelled from the spec: pulling the listed images in turn; [update] is
    what [update_func] has been called with so far.  An image the
    repository does not have is a warning and the loop goes on; a failure
    of the runtime is a [BackendExecutionError] of the call (section 7) and
    ends it. *)
Fixpoint pull_each (b : backend) (line_reset : string) (targets : list (string * string))
    (update : list string) (e : engine) : outcome unit * list string * engine :=
  match targets with
  | [] => (Returned tt, update, e)
  | t :: rest =>
      match fetch_image b t.2 with
      | Image =>
          pull_each b line_reset rest
            (update ++ [pull_header t; pull_status line_reset t.2])
            (store_image t.2 e)
      | NotInRepository =>
          pull_each b line_reset rest (update ++ [pull_header t; pull_warning]) e
      | RuntimeFailure =>
          (Failed BackendExecutionError, update ++ [pull_header t], e)
      end
  end.

(** Modelled from the spec: [pull_images] (declared at lines 240-265): every
    image of the project's services and commands; a missing one is a
    warning, not an error.  The second component is what [update_func] has
    been called with. *)
Definition pull_images (b : backend) (project : Project) (line_reset : string)
    (e : engine) : outcome unit * list string * engine :=
  match pull_each b line_reset (image_targets project) [] e with
  | (Returned _, update, e') => (Returned tt, update ++ ["Done."], e')
  | failed => failed
  end.

(** The two lines the status report has for an image: the header and,
    below it, the status of the transfer or the warning. *)
Definition pull_report (b : backend) (line_reset : string) (t : string * string)
    : list string :=
  [pull_header t;
   if decide (t.2 ∈ remote_images b) then pull_status line_reset t.2 else pull_warning].

(** ** A small host used to run the definitions

    [/proj] is the project [demo]; [/etc] lies outside of it. *)

Definition demo_project : Project := {|
  project_name := "demo";
  project_root := ["proj"];
  services := [("web", {| service_image := "nginx"; service_roles := ["src"] |});
               ("env", {| service_image := "busybox"; service_roles := [] |})];
  commands := [("npm", {| command_image := Some "node"; command_in_service := None |});
               ("sh", {| command_image := None; command_in_service := Some "web" |})];
  links := [];
|}.

Definition demo_world : world := {|
  fs := list_to_map
          [([], Dir);
           (["etc"], Dir);
           (["etc"; "hosts"], File "127.0.0.1 localhost");
           (["proj"], Dir);
           (["proj"; "index.html"], File "hello dot");
           (["proj"; "src"], Dir);
           (["proj"; "src"; "index.html"], File "hello src");
           (["proj"; "src"; ".nfs0001"], File "stale");
           (["proj"; "src"; "lib"], Dir);
           (["proj"; "src"; "lib"; "a.js"], File "a")];
  path_created := ∅;
  recursion_limit := 50;
|}.

(** The same host with room for a single call of a recursive function. *)
Definition shallow_world : world :=
  World (fs demo_world) (path_created demo_world) 1.

(** A backend whose repository lacks the image of [npm] and that cannot
    start [env], and an engine that has [web] running. *)
Definition demo_backend : backend := {|
  remote_images := {["nginx"; "busybox"]};
  broken_images := ∅;
  failing_services := {["env"]};
|}.

Definition demo_engine : engine := {|
  service_states := {[("demo", "web") := Running]};
  containers := [("demo", "web")];
  local_images := {["nginx"]};
|}.

(** The line reset [pull_images] has by default. *)
Definition newline : string := String (Ascii.ascii_of_nat 10) "".

(** * Properties *)

(** ** Running a call *)

Ltac unfold_M :=
  unfold mbind, M_bind, mret, M_ret, gets, raise in *.

Lemma path_in_project_true (p : pathname) (project : Project) :
  path_in_project p project = true ↔ project_root project `prefix_of` p.
Proof. unfold path_in_project. apply bool_decide_eq_true. Qed.

Lemma path_in_project_false (p : pathname) (project : Project) :
  path_in_project p project = false ↔ ¬ project_root project `prefix_of` p.
Proof. unfold path_in_project. apply bool_decide_eq_false. Qed.

Lemma os_error_is_OSError (e : errno) :
  issubclass (exn_class (os_error e)) OSError = true.
Proof. by destruct e. Qed.

(** ** The exception hierarchy *)

(** C8: [ExecError] derives from [BaseException] and not from [Exception]:
    a handler [except Exception] lets a raised [ExecError] through, whatever
    the handler does, while [except BaseException] hands it to the handler. *)
Theorem ExecError_escapes_except_Exception :
  superclass ExecError = Some BaseException
  ∧ issubclass ExecError BaseException = true
  ∧ issubclass ExecError Exception = false
  ∧ (∀ (S A : Type) (msg : string) (s : S) (handler : exn → S → result A * S),
       try_except (Raise (Exn ExecError msg), s) Exception handler
       = (Raise (Exn ExecError msg), s))
  ∧ (∀ (S A : Type) (msg : string) (s : S) (handler : exn → S → result A * S),
       try_except (Raise (Exn ExecError msg), s) BaseException handler
       = handler (Exn ExecError msg) s).
Proof. repeat split. Qed.

(** C10: the host-bridge hostname is the literal the module binds to
    [RIPTIDE_HOST_HOSTNAME]: a closed constant, the same for every project
    and every state of the host. *)
Theorem RIPTIDE_HOST_HOSTNAME_literal :
  RIPTIDE_HOST_HOSTNAME = "host.riptide.internal"
  ∧ String.length RIPTIDE_HOST_HOSTNAME = 21.
Proof. split; reflexivity. Qed.

(** ** The project boundary *)

(** C1: a path that is neither the project's root nor below it is refused by
    [path_rm], and as a destination by [path_copy] whatever the source: both
    raise [PermissionError] and return the state they were called in. *)
Theorem path_outside_project_refused (p : pathname) (project : Project) (w : world) :
  ¬ project_root project `prefix_of` p →
  (∃ e, path_rm p project w = (Raise e, w) ∧ exn_class e = PermissionError)
  ∧ (∀ fromm, ∃ e, path_copy fromm p project w = (Raise e, w)
                   ∧ exn_class e = PermissionError).
Proof.
  intros Hout%path_in_project_false.
  unfold path_rm, path_copy. rewrite Hout. simpl. split; [|intros fromm]; eauto.
Qed.

Lemma path_outside_project_refused_witness :
  (∃ e, path_rm ["etc"; "hosts"] demo_project demo_world = (Raise e, demo_world)
        ∧ exn_class e = PermissionError)
  ∧ (∀ fromm, ∃ e, path_copy fromm ["etc"; "hosts"] demo_project demo_world
                   = (Raise e, demo_world)
                   ∧ exn_class e = PermissionError).
Proof.
  apply (path_outside_project_refused ["etc"; "hosts"] demo_project demo_world).
  apply path_in_project_false. reflexivity.
Defined.

(** ** Deleting what is not there *)

Lemma lookup_errno_cases (w : world) (p : pathname) :
  lookup_errno w p = ENOENT ∨ lookup_errno w p = ENOTDIR.
Proof. unfold lookup_errno. destruct (existsb _ _); auto. Qed.

(** C3: on a path within the project at which nothing exists, [path_rm]
    does not return silently: [os.path.isfile] is false, so
    [shutil.rmtree] runs and raises [FileNotFoundError] (or
    [NotADirectoryError], when a regular file is on the way), leaving the
    state as it was. *)
Theorem path_rm_absent_raises (p : pathname) (project : Project) (w : world) :
  project_root project `prefix_of` p →
  stat w p = None →
  ∃ e, path_rm p project w = (Raise e, w)
       ∧ (exn_class e = FileNotFoundError ∨ exn_class e = NotADirectoryError).
Proof.
  intros Hin%path_in_project_true Habsent.
  unfold path_rm. rewrite Hin. unfold_M. simpl.
  unfold os_path_isfile, shutil_rmtree. rewrite Habsent. simpl. rewrite Habsent.
  eexists; split; [reflexivity|].
  destruct (lookup_errno_cases w p) as [-> | ->]; auto.
Qed.

Lemma path_rm_absent_raises_witness :
  ∃ e, path_rm ["proj"; "cache"] demo_project demo_world = (Raise e, demo_world)
       ∧ (exn_class e = FileNotFoundError ∨ exn_class e = NotADirectoryError).
Proof.
  apply (path_rm_absent_raises ["proj"; "cache"] demo_project demo_world).
  - apply path_in_project_true. reflexivity.
  - vm_compute. reflexivity.
Defined.

(** ** The file system as a tree *)

Lemma dirname_snoc (p : pathname) (n : string) : dirname (p ++ [n]) = p.
Proof. unfold dirname. apply removelast_last. Qed.

Lemma last_basename (p : pathname) (n : string) : basename (p ++ [n]) = [n].
Proof. unfold basename. by rewrite last_snoc. Qed.

Lemma pathname_snoc_cases (p : pathname) : p = [] ∨ ∃ q n, p = q ++ [n].
Proof. destruct p as [|x p] using rev_ind; eauto. Qed.

Lemma fs_wf_check_sound (w : world) : fs_wf_check w = true → fs_wf w.
Proof.
  unfold fs_wf_check, os_path_isdir.
  intros [Hroot Hall]%andb_true_iff. apply bool_decide_eq_true in Hroot.
  split; [done|]. intros p n [i Hi].
  rewrite forallb_forall in Hall.
  assert (Hin : In (p ++ [n]) (map_to_list (fs w)).*1).
  { apply list_elem_of_In, list_elem_of_fmap. exists (p ++ [n], i). split; [done|].
    by apply elem_of_map_to_list. }
  specialize (Hall _ Hin). rewrite dirname_snoc in Hall.
  destruct (p ++ [n]) eqn:E; [by destruct p|].
  by apply bool_decide_eq_true in Hall.
Qed.

Lemma fs_wf_absent_below (w : world) (p r : pathname) :
  fs_wf w → stat w p = None → stat w (p ++ r) = None.
Proof.
  intros [_ Hwf] Hp. induction r as [|n r IH] using rev_ind.
  - by rewrite app_nil_r.
  - destruct (stat w (p ++ r ++ [n])) eqn:E; [|done].
    rewrite app_assoc in E. assert (Hs : is_Some (stat w ((p ++ r) ++ [n]))) by eauto.
    apply Hwf in Hs. congruence.
Qed.

Lemma fs_wf_below_file (w : world) (p r : pathname) (n : string) (data : string) :
  fs_wf w → stat w p = Some (File data) → stat w (p ++ n :: r) = None.
Proof.
  intros Hwf Hp.
  replace (p ++ n :: r) with ((p ++ [n]) ++ r) by by rewrite <- app_assoc.
  apply fs_wf_absent_below; [done|].
  destruct (stat w (p ++ [n])) eqn:E; [|done].
  destruct Hwf as [_ Hwf]. assert (Hs : is_Some (stat w (p ++ [n]))) by eauto.
  apply Hwf in Hs. congruence.
Qed.

Lemma fs_wf_above (w : world) (p r : pathname) :
  fs_wf w → is_Some (stat w (p ++ r)) → r ≠ [] → stat w p = Some Dir.
Proof.
  intros Hwf Hs Hr.
  destruct (stat w p) as [[data|]|] eqn:E; [| done |].
  - destruct r as [|n r]; [done|]. rewrite (fs_wf_below_file w p r n data) in Hs; [|done..].
    by destruct Hs.
  - rewrite fs_wf_absent_below in Hs; [|done..]. by destruct Hs.
Qed.

Lemma fs_wf_prefix_dir (w : world) (p q : pathname) :
  fs_wf w → stat w q = Some Dir → p `prefix_of` q → stat w p = Some Dir.
Proof.
  intros Hwf Hq [r ->]. destruct r as [|n r].
  - by rewrite app_nil_r in Hq.
  - apply (fs_wf_above w p (n :: r)); [done| by rewrite Hq |done].
Qed.

(** Paths neither of which is at or below the other. *)
Lemma prefix_snoc_inv (q p : pathname) (n : string) :
  q `prefix_of` p ++ [n] → q `prefix_of` p ∨ q = p ++ [n].
Proof.
  intros [r Hr]. destruct r as [|x r] using rev_ind.
  - right. by rewrite app_nil_r in Hr.
  - left. rewrite app_assoc in Hr. apply app_inj_tail in Hr as [-> _]. by exists r.
Qed.

Lemma apart_app (a b x y : pathname) :
  ¬ a `prefix_of` b → ¬ b `prefix_of` a → ¬ a ++ x `prefix_of` b ++ y.
Proof.
  intros Hab Hba Hp.
  destruct (prefix_weak_total a b (b ++ y)); [|by apply prefix_app_r|done..].
  eapply prefix_app_l. done.
Qed.

Lemma apart_siblings (p r r' : pathname) (n m : string) :
  n ≠ m → ¬ p ++ n :: r `prefix_of` p ++ m :: r'.
Proof.
  intros Hne [k Hk]. rewrite <- app_assoc in Hk. apply app_inv_head in Hk.
  simpl in Hk. congruence.
Qed.

Lemma stat_set_fs_insert (w : world) (p q : pathname) (i : inode) :
  stat (set_fs (<[p := i]> (fs w)) w) q = if decide (p = q) then Some i else stat w q.
Proof. unfold stat. simpl. apply lookup_insert. Qed.

Lemma stat_set_fs_delete (w : world) (p q : pathname) :
  stat (set_fs (delete p (fs w)) w) q = if decide (p = q) then None else stat w q.
Proof. unfold stat. simpl. apply lookup_delete. Qed.

Lemma fs_wf_insert (w : world) (p : pathname) (i : inode) :
  fs_wf w → p ≠ [] → stat w (dirname p) = Some Dir →
  (∀ n, stat w (p ++ [n]) = None ∨ i = Dir) →
  fs_wf (set_fs (<[p := i]> (fs w)) w).
Proof.
  intros [Hroot Hwf] Hp Hparent Hkids. split.
  - rewrite stat_set_fs_insert. by destruct (decide (p = [])).
  - intros q n. rewrite !stat_set_fs_insert.
    destruct (decide (p = q ++ [n])) as [->|Hne].
    + intros _. rewrite dirname_snoc in Hparent.
      destruct (decide (q ++ [n] = q)) as [E|_]; [|done].
      apply (f_equal length) in E. rewrite length_app in E. simpl in E. lia.
    + intros Hs. destruct (decide (p = q)) as [->|_]; [|by apply (Hwf q n)].
      destruct (Hkids n) as [E| ->]; [|done]. rewrite E in Hs. by destruct Hs.
Qed.

(** ** Listing a directory *)

Lemma child_name_Some (p q : pathname) (n : string) :
  child_name p q = Some n ↔ q = p ++ [n].
Proof.
  unfold child_name. split.
  - destruct (pathname_snoc_cases q) as [->|(q' & m & ->)]; [done|].
    rewrite last_snoc, dirname_snoc. case_decide; naive_solver.
  - intros ->. by rewrite last_snoc, dirname_snoc, decide_True.
Qed.

Lemma NoDup_omap_inj {A B : Type} (f : A → option B) (l : list A) :
  (∀ x y z, f x = Some z → f y = Some z → x = y) →
  NoDup l → NoDup (omap f l).
Proof.
  intros Hinj. induction 1 as [|x l Hx Hl IH]; simpl; [constructor|].
  destruct (f x) as [z|] eqn:E; [|done]. constructor; [|done].
  intros (y & Hy & Hfy)%list_elem_of_omap.
  by rewrite (Hinj x y z E Hfy) in Hx.
Qed.

Lemma os_listdir_spec (p : pathname) (w : world) :
  stat w p = Some Dir →
  ∃ names, os_listdir p w = (Ok names, w) ∧ NoDup names
           ∧ ∀ n, n ∈ names ↔ is_Some (stat w (p ++ [n])).
Proof.
  intros Hp. unfold os_listdir. rewrite Hp. eexists; split; [done|]. split.
  - apply NoDup_omap_inj; [|apply NoDup_fst_map_to_list].
    intros x y z Hx%child_name_Some Hy%child_name_Some. congruence.
  - intros n. rewrite list_elem_of_omap. split.
    + intros (q & Hq & ->%child_name_Some).
      apply list_elem_of_fmap in Hq as ([q' i] & -> & Hi).
      apply elem_of_map_to_list in Hi. by exists i.
    + intros [i Hi]. exists (p ++ [n]). split; [|by apply child_name_Some].
      apply list_elem_of_fmap. exists (p ++ [n], i). split; [done|].
      by apply elem_of_map_to_list.
Qed.

(** ** Removing a tree: [shutil.rmtree] *)

Lemma entries_spec (w : world) (p : pathname) (n : string) :
  n ∈ omap (child_name p) (map_to_list (fs w)).*1 ↔ is_Some (stat w (p ++ [n])).
Proof.
  rewrite list_elem_of_omap. split.
  - intros (q & Hq & ->%child_name_Some).
    apply list_elem_of_fmap in Hq as ([q' i] & -> & Hi).
    apply elem_of_map_to_list in Hi. by exists i.
  - intros [i Hi]. exists (p ++ [n]). split; [|by apply child_name_Some].
    apply list_elem_of_fmap. exists (p ++ [n], i). split; [done|].
    by apply elem_of_map_to_list.
Qed.

Lemma os_rmdir_empty (p : pathname) (w : world) :
  stat w p = Some Dir → p ≠ [] → (∀ n, stat w (p ++ [n]) = None) →
  os_rmdir p w = (Ok tt, set_fs (delete p (fs w)) w).
Proof.
  intros Hp Hne Hempty. unfold os_rmdir. rewrite Hp, decide_False by done.
  destruct (omap _ _) as [|n l] eqn:E; [done|]. exfalso.
  assert (Hn : is_Some (stat w (p ++ [n]))).
  { apply entries_spec. rewrite E. left. }
  rewrite Hempty in Hn. by destruct Hn.
Qed.

Lemma fs_wf_delete (w : world) (p : pathname) :
  fs_wf w → p ≠ [] → (∀ n, stat w (p ++ [n]) = None) →
  fs_wf (set_fs (delete p (fs w)) w).
Proof.
  intros [Hroot Hwf] Hp Hkids. split.
  - by rewrite stat_set_fs_delete, decide_False.
  - intros q n. rewrite !stat_set_fs_delete.
    case_decide as E1; [by intros [? ?]|]. intros Hs.
    case_decide as E2; [|by apply (Hwf q n)].
    subst q. rewrite Hkids in Hs. by destruct Hs.
Qed.

Lemma rm_entries_cons (recur : pathname → M unit) (p : pathname) (n : string)
    (rest : list string) (w : world) :
  rm_entries recur p (n :: rest) w
  = match rm_entries recur p [n] w with
    | (Ok _, w1) => rm_entries recur p rest w1
    | (Raise e, w1) => (Raise e, w1)
    end.
Proof.
  simpl. unfold_M. destruct (os_path_isdir w (p ++ [n])).
  - destruct (recur (p ++ [n]) w) as [[[]|e] w0]; [|done].
    by destruct (os_rmdir (p ++ [n]) w0) as [[[]|e] w1].
  - by destruct (os_remove (p ++ [n]) w) as [[[]|e] w1].
Qed.

Section rm_entries_correct.
Variables (recur : pathname → M unit) (depth : nat).
Hypothesis recur_spec : ∀ p w,
  fs_wf w → stat w p = Some Dir →
  (∀ r, stat w (p ++ r) = Some Dir → (length r < depth)%nat) →
  ∃ w', recur p w = (Ok tt, w')
        ∧ fs_wf w' ∧ path_created w' = path_created w
        ∧ recursion_limit w' = recursion_limit w
        ∧ ∀ q, stat w' q = if bool_decide (p `prefix_of` q ∧ q ≠ p) then None else stat w q.

Variable p : pathname.

Lemma rm_entries_one (n : string) (w : world) :
  fs_wf w → is_Some (stat w (p ++ [n])) →
  (∀ r, stat w (p ++ n :: r) = Some Dir → (length r < depth)%nat) →
  ∃ w1, rm_entries recur p [n] w = (Ok tt, w1)
        ∧ fs_wf w1 ∧ path_created w1 = path_created w
        ∧ recursion_limit w1 = recursion_limit w
        ∧ ∀ q, stat w1 q = if bool_decide (p ++ [n] `prefix_of` q) then None else stat w q.
Proof.
  intros Hwf Hn Hdepth. cbn [rm_entries]. unfold_M.
  assert (Hne : p ++ [n] ≠ []) by (by destruct p).
  unfold os_path_isdir. case_bool_decide as Hd.
  - destruct (recur_spec (p ++ [n]) w Hwf Hd)
      as (w0 & -> & Hwf0 & Hmemo0 & Hrl0 & Hst0).
    { intros r. rewrite <- app_assoc. apply Hdepth. }
    assert (Hself : stat w0 (p ++ [n]) = Some Dir).
    { rewrite Hst0, bool_decide_eq_false_2; [done|]. by intros [_ ?]. }
    assert (Hkids : ∀ m, stat w0 ((p ++ [n]) ++ [m]) = None).
    { intros m. rewrite Hst0, bool_decide_eq_true_2; [done|].
      split; [by apply prefix_app_r|]. intros E%(f_equal length).
      rewrite !length_app in E. simpl in E. lia. }
    rewrite (os_rmdir_empty _ _ Hself Hne Hkids).
    eexists. split; [done|]. split_and!; try done.
    + by apply fs_wf_delete.
    + intros q. rewrite stat_set_fs_delete, Hst0.
      case_decide as E; [subst q; by rewrite bool_decide_eq_true_2|].
      case_bool_decide as H1; case_bool_decide as H2; try done.
      * by destruct H1.
      * destruct H1. by split.
  - destruct Hn as [[data|] Hn]; [|done].
    unfold os_remove. rewrite Hn.
    eexists. split; [done|]. split_and!; try done.
    + apply fs_wf_delete; [done..|]. intros m.
      by apply (fs_wf_below_file w (p ++ [n]) [] m data).
    + intros q. rewrite stat_set_fs_delete.
      case_decide as E; [subst q; by rewrite bool_decide_eq_true_2|].
      case_bool_decide as H1; [|done].
      destruct H1 as [[|m r] ->]; [by rewrite app_nil_r in E|].
      by apply (fs_wf_below_file w (p ++ [n]) r m data).
Qed.

Lemma rm_entries_spec (names : list string) :
  ∀ w, NoDup names → fs_wf w →
    (∀ n, n ∈ names → is_Some (stat w (p ++ [n]))) →
    (∀ n r, n ∈ names → stat w (p ++ n :: r) = Some Dir → (length r < depth)%nat) →
    ∃ w', rm_entries recur p names w = (Ok tt, w')
          ∧ fs_wf w' ∧ path_created w' = path_created w
          ∧ recursion_limit w' = recursion_limit w
          ∧ ∀ q, stat w' q
                 = if existsb (λ n, bool_decide (p ++ [n] `prefix_of` q)) names
                   then None else stat w q.
Proof.
  induction names as [|n rest IH]; intros w Hnd Hwf Hsome Hdepth.
  { exists w. by split_and!. }
  apply NoDup_cons in Hnd as [Hn Hnd].
  destruct (rm_entries_one n w) as (w1 & Hrun1 & Hwf1 & Hmemo1 & Hrl1 & Hst1); try done.
  { apply Hsome. left. }
  { intros r. apply Hdepth. left. }
  destruct (IH w1) as (w' & Hrun & Hwf' & Hmemo' & Hrl' & Hst'); try done.
  { intros m Hm. rewrite Hst1, bool_decide_eq_false_2; [apply Hsome; by right|].
    apply (apart_siblings p [] [] n m). by intros ->. }
  { intros m r Hm. rewrite Hst1. case_bool_decide; [done|]. apply Hdepth. by right. }
  exists w'. rewrite rm_entries_cons, Hrun1, Hrun. split_and!; try congruence.
  intros q. rewrite Hst', Hst1. cbn [existsb].
  by destruct (existsb _ rest), (bool_decide (p ++ [n] `prefix_of` q)).
Qed.
End rm_entries_correct.

Lemma _rmtree_safe_fd_spec (depth : nat) :
  ∀ p w,
    fs_wf w → stat w p = Some Dir →
    (∀ r, stat w (p ++ r) = Some Dir → (length r < depth)%nat) →
    ∃ w', _rmtree_safe_fd depth p w = (Ok tt, w')
          ∧ fs_wf w' ∧ path_created w' = path_created w
          ∧ recursion_limit w' = recursion_limit w
          ∧ ∀ q, stat w' q = if bool_decide (p `prefix_of` q ∧ q ≠ p) then None else stat w q.
Proof.
  induction depth as [|depth IH]; intros p w Hwf Hp Hdepth.
  { specialize (Hdepth []). rewrite app_nil_r in Hdepth. specialize (Hdepth Hp).
    simpl in Hdepth. lia. }
  destruct (os_listdir_spec p w Hp) as (names & Hls & Hnd & Hnames).
  destruct (rm_entries_spec (_rmtree_safe_fd depth) depth IH p names w)
    as (w' & Hrun & Hwf' & Hmemo' & Hrl' & Hst'); try done.
  { intros n Hn. by apply Hnames. }
  { intros n r _ Hd%Hdepth. simpl in Hd. lia. }
  exists w'. split.
  { cbn [_rmtree_safe_fd]. unfold_M. by rewrite Hls. }
  split_and!; try done. intros q. rewrite Hst'.
  destruct (existsb _ names) eqn:E.
  - apply existsb_exists in E as (n & _ & Hpre%bool_decide_eq_true).
    rewrite bool_decide_eq_true_2; [done|]. split.
    + etrans; [|exact Hpre]. by apply prefix_app_r.
    + intros ->. apply prefix_length in Hpre. rewrite length_app in Hpre. simpl in Hpre. lia.
  - case_bool_decide as Hq; [|done]. destruct Hq as [[[|n r] ->] Hne].
    { by rewrite app_nil_r in Hne. }
    replace (p ++ n :: r) with ((p ++ [n]) ++ r) by by rewrite <- app_assoc.
    apply fs_wf_absent_below; [done|].
    destruct (stat w (p ++ [n])) eqn:En; [|done]. exfalso.
    assert (Hin : n ∈ names) by (apply Hnames; by rewrite En).
    apply not_true_iff_false in E. apply E, existsb_exists.
    exists n. split; [by apply list_elem_of_In|].
    apply bool_decide_eq_true. exists r. by rewrite <- app_assoc.
Qed.

Lemma shutil_rmtree_spec (p : pathname) (w : world) :
  fs_wf w → stat w p = Some Dir → p ≠ [] →
  (∀ r, stat w (p ++ r) = Some Dir → (length r < recursion_limit w)%nat) →
  ∃ w', shutil_rmtree p w = (Ok tt, w')
        ∧ fs_wf w' ∧ path_created w' = path_created w
        ∧ recursion_limit w' = recursion_limit w
        ∧ ∀ q, stat w' q = if bool_decide (p `prefix_of` q) then None else stat w q.
Proof.
  intros Hwf Hp Hne Hdepth.
  destruct (_rmtree_safe_fd_spec _ p w Hwf Hp Hdepth)
    as (w0 & Hrun & Hwf0 & Hmemo0 & Hrl0 & Hst0).
  assert (Hself : stat w0 p = Some Dir).
  { rewrite Hst0, bool_decide_eq_false_2; [done|]. by intros [_ ?]. }
  assert (Hkids : ∀ m, stat w0 (p ++ [m]) = None).
  { intros m. rewrite Hst0, bool_decide_eq_true_2; [done|].
    split; [by apply prefix_app_r|]. intros E%(f_equal length).
    rewrite !length_app in E. simpl in E. lia. }
  unfold shutil_rmtree. rewrite Hp. unfold_M. rewrite Hrun.
  rewrite (os_rmdir_empty _ _ Hself Hne Hkids).
  eexists. split; [done|]. split_and!; try done.
  - by apply fs_wf_delete.
  - intros q. rewrite stat_set_fs_delete, Hst0.
    case_decide as E; [subst q; by rewrite bool_decide_eq_true_2|].
    case_bool_decide as H1; case_bool_decide as H2; try done.
    + by destruct H1.
    + destruct H1. by split.
Qed.

(** ** [path_rm] on what exists *)

Lemma path_rm_existing (p : pathname) (project : Project) (w : world) :
  fs_wf w → project_root project `prefix_of` p → p ≠ [] → is_Some (stat w p) →
  (∀ r, stat w (p ++ r) = Some Dir → (length r < recursion_limit w)%nat) →
  ∃ w', path_rm p project w = (Ok tt, w')
        ∧ fs_wf w' ∧ path_created w' = path_created w
        ∧ recursion_limit w' = recursion_limit w
        ∧ ∀ q, stat w' q = if bool_decide (p `prefix_of` q) then None else stat w q.
Proof.
  intros Hwf Hin%path_in_project_true Hp [i Hi] Hdepth.
  unfold path_rm. rewrite Hin. unfold_M. simpl.
  unfold os_path_isfile. rewrite Hi. destruct i as [data|].
  - unfold os_remove. rewrite Hi. eexists; split; [done|]. split_and!; try done.
    + apply fs_wf_delete; [done..|]. intros m. by apply (fs_wf_below_file w p [] m data).
    + intros q. rewrite stat_set_fs_delete.
      case_bool_decide as Hpre; case_decide as Heq; subst; try done.
      destruct Hpre as [[|n r] ->]; [by rewrite app_nil_r in Heq|].
      by rewrite (fs_wf_below_file w p r n data).
  - by apply shutil_rmtree_spec.
Qed.

(** ** Copying a regular file: [shutil.copy2] *)

Lemma shutil_copyfile_ok (src dst : pathname) (data : string) (w : world) :
  stat w src = Some (File data) → src ≠ dst → stat w dst ≠ Some Dir →
  (stat w dst = None → stat w (dirname dst) = Some Dir) →
  shutil_copyfile src dst w = (Ok tt, set_fs (<[dst := File data]> (fs w)) w).
Proof.
  intros Hsrc Hne Hnd Hparent. unfold shutil_copyfile, samefile.
  rewrite (bool_decide_eq_false_2 _ Hne), andb_false_r.
  unfold_M. unfold read_file, write_file. rewrite Hsrc.
  destruct (stat w dst) as [[old|]|] eqn:E; [done|done|].
  unfold os_path_isdir. by rewrite Hparent, bool_decide_eq_true_2.
Qed.

Lemma path_copy_file (fromm to : pathname) (project : Project) (data : string) (w : world) :
  project_root project `prefix_of` to →
  stat w fromm = Some (File data) → fromm ≠ to → stat w to ≠ Some Dir →
  (stat w to = None → stat w (dirname to) = Some Dir) →
  path_copy fromm to project w = (Ok tt, set_fs (<[to := File data]> (fs w)) w).
Proof.
  intros Hin%path_in_project_true Hsrc Hne Hnd Hparent.
  unfold path_copy. rewrite Hin. unfold_M. simpl.
  unfold os_path_isfile. rewrite Hsrc. unfold shutil_copy2, os_path_isdir.
  rewrite (bool_decide_eq_false_2 _ Hnd). by apply shutil_copyfile_ok.
Qed.

Lemma path_copy_file_into_dir (fromm to : pathname) (n : string) (project : Project)
    (data : string) (w : world) :
  project_root project `prefix_of` to →
  stat w fromm = Some (File data) → last fromm = Some n → stat w to = Some Dir →
  fromm ≠ to ++ [n] → stat w (to ++ [n]) ≠ Some Dir →
  path_copy fromm to project w
  = (Ok tt, set_fs (<[to ++ [n] := File data]> (fs w)) w).
Proof.
  intros Hin%path_in_project_true Hsrc Hlast Hto Hne Hnd.
  unfold path_copy. rewrite Hin. unfold_M. simpl.
  unfold os_path_isfile. rewrite Hsrc. unfold shutil_copy2, os_path_isdir.
  rewrite (bool_decide_eq_true_2 _ Hto). unfold basename. rewrite Hlast. simpl.
  apply shutil_copyfile_ok; [done..|]. intros _. by rewrite dirname_snoc.
Qed.

(** ** Creating directories: [mkpath] *)

Lemma fs_wf_same_fs (w w' : world) : fs w' = fs w → fs_wf w → fs_wf w'.
Proof. unfold fs_wf, stat. by intros ->. Qed.

Lemma deepest_dir_spec (w : world) (name : pathname) (k : nat) :
  fs_wf w →
  (deepest_dir w name k ≤ k)%nat
  ∧ stat w (take (deepest_dir w name k) name) = Some Dir
  ∧ ∀ i, (deepest_dir w name k < i ≤ k)%nat → stat w (take i name) ≠ Some Dir.
Proof.
  intros Hwf. induction k as [|k (IHle & IHdir & IHnot)]; simpl.
  - split; [done|]. split; [apply Hwf | lia].
  - unfold os_path_isdir at 1 2 3. case_bool_decide as Hd.
    + split; [done|]. split; [done | lia].
    + split; [lia|]. split; [done|]. intros i Hi.
      destruct (decide (i = S k)) as [->|]; [done|]. apply IHnot. lia.
Qed.

Lemma mkpath_tails_spec (tails : list string) :
  ∀ (head : pathname) (w : world),
    fs_wf w → memo_ok w → stat w head = Some Dir →
    (∀ d ds, tails = d :: ds → stat w (head ++ [d]) = None) →
    ∃ w', mkpath_tails head tails w = (Ok tt, w')
          ∧ fs_wf w' ∧ memo_ok w' ∧ recursion_limit w' = recursion_limit w
          ∧ ∀ q, stat w' q
                 = if bool_decide (q `prefix_of` head ++ tails ∧ ¬ q `prefix_of` head)
                   then Some Dir else stat w q.
Proof.
  induction tails as [|d ds IH]; intros head w Hwf Hmemo Hhead Hnew.
  - exists w. split_and!; try done. intros q. rewrite app_nil_r.
    case_bool_decide as H; [by destruct H|done].
  - specialize (Hnew d ds eq_refl).
    set (head' := head ++ [d]) in *.
    set (w2 := add_path_created head' (set_fs (<[head' := Dir]> (fs w)) w)).
    assert (Hstat2 : ∀ q, stat w2 q = if decide (head' = q) then Some Dir else stat w q).
    { intros q. apply (stat_set_fs_insert w head' q Dir). }
    assert (Hrun : mkpath_tails head (d :: ds) w = mkpath_tails head' ds w2).
    { simpl. unfold_M. fold head'.
      rewrite bool_decide_eq_false_2; [|intros Hc%Hmemo; congruence].
      unfold os_mkdir. rewrite Hnew. unfold os_path_isdir.
      assert (Hdn : dirname head' = head) by apply dirname_snoc.
      rewrite Hdn, bool_decide_eq_true_2; done. }
    destruct (IH head' w2) as (w' & Hrun' & Hwf' & Hmemo' & Hrl' & Hstat').
    + apply (fs_wf_same_fs (set_fs (<[head' := Dir]> (fs w)) w)); [done|].
      apply fs_wf_insert; [done|by destruct head| |by right].
      unfold head'. by rewrite dirname_snoc.
    + intros p [->%elem_of_singleton | Hp]%elem_of_union; rewrite Hstat2.
      * by rewrite decide_True.
      * case_decide; [done|]. by apply Hmemo.
    + by rewrite Hstat2, decide_True.
    + intros d' ds' _. rewrite Hstat2. case_decide as E.
      * apply (f_equal length) in E. rewrite length_app in E. simpl in E. lia.
      * unfold head'. by apply fs_wf_absent_below.
    + exists w'. rewrite Hrun. split_and!; try done. intros q. rewrite Hstat', Hstat2.
      replace (head ++ d :: ds) with (head' ++ ds)
        by (unfold head'; by rewrite <- app_assoc).
      assert (Hhh : head `prefix_of` head') by by apply prefix_app_r.
      destruct (decide (q `prefix_of` head' ++ ds)) as [HA|HA];
        destruct (decide (q `prefix_of` head')) as [HB'|HB'].
      * rewrite bool_decide_eq_false_2 by tauto.
        apply prefix_snoc_inv in HB' as [HB| ->].
        -- rewrite bool_decide_eq_false_2 by tauto.
           case_decide as E; [|done]. subst q. by destruct (prefix_snoc_not head d).
        -- rewrite bool_decide_eq_true_2, decide_True; [done..|].
           split; [done|apply prefix_snoc_not].
      * rewrite !bool_decide_eq_true_2; [done| |done].
        split; [done|]. intros HB. apply HB'. by etrans.
      * rewrite !bool_decide_eq_false_2 by tauto.
        case_decide as E; [|done]. subst q. destruct HA. by apply prefix_app_r.
      * rewrite !bool_decide_eq_false_2 by tauto.
        case_decide as E; [|done]. subst q. by destruct HB'.
Qed.

Lemma mkpath_spec (dst : pathname) (w : world) :
  fs_wf w → memo_ok w →
  (∀ q data, q `prefix_of` dst → stat w q ≠ Some (File data)) →
  ∃ w', mkpath dst w = (Ok tt, w')
        ∧ fs_wf w' ∧ memo_ok w' ∧ recursion_limit w' = recursion_limit w
        ∧ ∀ q, stat w' q = if bool_decide (q `prefix_of` dst) then Some Dir else stat w q.
Proof.
  intros Hwf Hmemo Hnofile. unfold mkpath. unfold_M. unfold os_path_isdir at 1.
  case_bool_decide as Hd.
  - exists w. split_and!; try done. intros q. case_bool_decide; [|done].
    by apply (fs_wf_prefix_dir w q dst).
  - assert (Hnone : stat w dst = None).
    { destruct (stat w dst) as [[data|]|] eqn:E; [|done..].
      by destruct (Hnofile dst data). }
    rewrite bool_decide_eq_false_2; [|intros Hc%Hmemo; congruence].
    destruct (deepest_dir_spec w dst (length dst - 1) Hwf) as (Hle & Hdir & Hnot).
    set (k := deepest_dir w dst (length dst - 1)) in *.
    assert (Hlen : (0 < length dst)%nat).
    { destruct dst; simpl; [|lia]. destruct Hwf as [Hroot _]. congruence. }
    destruct (mkpath_tails_spec (drop k dst) (take k dst) w)
      as (w' & Hrun & Hwf' & Hmemo' & Hrl' & Hstat'); try done.
    + intros d ds Hdrop.
      assert (Hk : dst !! k = Some d).
      { rewrite <- (Nat.add_0_r k), <- lookup_drop, Hdrop. done. }
      rewrite <- (take_S_r _ _ _ Hk).
      destruct (decide (S k = length dst)) as [E|E].
      * rewrite E, firstn_all. done.
      * destruct (stat w (take (S k) dst)) as [[data|]|] eqn:Es; [| |done].
        -- destruct (Hnofile (take (S k) dst) data); [apply prefix_take|done].
        -- destruct (Hnot (S k)); [|done]. apply lookup_lt_Some in Hk. lia.
    + exists w'. rewrite Hrun. split_and!; try done. intros q. rewrite Hstat'.
      rewrite take_drop. case_bool_decide as Hc; case_bool_decide as Hq; try done.
      * by destruct Hc.
      * assert (Hqk : q `prefix_of` take k dst) by (apply dec_stable; tauto).
        by apply (fs_wf_prefix_dir w q (take k dst)).
Qed.

(** ** Copying a tree: [copy_tree] *)

Lemma copy_file_new (src dst : pathname) (data : string) (w : world) :
  stat w src = Some (File data) → stat w dst = None →
  stat w (dirname dst) = Some Dir →
  copy_file src dst w = (Ok tt, set_fs (<[dst := File data]> (fs w)) w).
Proof.
  intros Hsrc Hdst Hparent. unfold copy_file, _copy_file_contents, wrap_os_error.
  unfold_M. unfold os_path_isfile, os_path_isdir, os_path_exists, read_file, write_file.
  repeat (rewrite ?Hsrc, ?Hdst, ?Hparent; simpl).
  unfold os_path_isdir. by rewrite Hparent, bool_decide_eq_true_2.
Qed.

Lemma copy_names_cons (recur : pathname → pathname → M unit)
    (src dst : pathname) (n : string) (rest : list string) (w : world) :
  copy_names recur src dst (n :: rest) w
  = match copy_names recur src dst [n] w with
    | (Ok _, w1) => copy_names recur src dst rest w1
    | (Raise e, w1) => (Raise e, w1)
    end.
Proof.
  simpl. unfold_M.
  destruct (String.prefix ".nfs" n); [done|].
  destruct (os_path_isdir w (src ++ [n])).
  - by destruct (recur (src ++ [n]) (dst ++ [n]) w) as [[[]|e] w1].
  - by destruct (copy_file (src ++ [n]) (dst ++ [n]) w) as [[[]|e] w1].
Qed.

Lemma overlay_Some {A : Type} (a : A) (o : option A) : Some a ∪ o = Some a.
Proof. by destruct o. Qed.

Lemma overlay_None {A : Type} (o : option A) : None ∪ o = o.
Proof. by destruct o. Qed.

Lemma nfs_free_cons (n : string) (r : list string) :
  nfs_free (n :: r) = negb (String.prefix ".nfs" n) && nfs_free r.
Proof. done. Qed.

Section copy_names_correct.
Variables (recur : pathname → pathname → M unit) (depth : nat).
Hypothesis recur_spec : ∀ src dst w,
  tree_copyable depth src dst w →
  ∃ w', recur src dst w = (Ok tt, w') ∧ tree_copied src dst w w'.

Variables (src dst : pathname).
Hypothesis Hsd : ¬ src `prefix_of` dst.
Hypothesis Hds : ¬ dst `prefix_of` src.

Lemma copy_names_one (n : string) (w : world) :
  fs_wf w → memo_ok w → stat w dst = Some Dir →
  is_Some (stat w (src ++ [n])) →
  (∀ r, stat w (src ++ n :: r) = Some Dir → (length r < depth)%nat) →
  (String.prefix ".nfs" n = false → stat w (dst ++ [n]) = None) →
  ∃ w1, copy_names recur src dst [n] w = (Ok tt, w1)
        ∧ fs_wf w1 ∧ memo_ok w1 ∧ recursion_limit w1 = recursion_limit w
        ∧ (∀ r, stat w1 (dst ++ n :: r)
                = (if nfs_free (n :: r) then stat w (src ++ n :: r) else None)
                  ∪ stat w (dst ++ n :: r))
        ∧ (∀ q, ¬ dst ++ [n] `prefix_of` q → stat w1 q = stat w q).
Proof.
  intros Hwf Hmemo Hdst Hsrc Hdepth Hfree. cbn [copy_names]. unfold_M.
  destruct (String.prefix ".nfs" n) eqn:Hnfs.
  { exists w. split_and!; try done. intros r.
    rewrite nfs_free_cons, Hnfs. cbn [negb andb]. by rewrite overlay_None. }
  specialize (Hfree eq_refl).
  unfold os_path_isdir. case_bool_decide as Hd.
  - destruct (recur_spec (src ++ [n]) (dst ++ [n]) w)
      as (w1 & -> & Hwf1 & Hmemo1 & Hrl1 & Hup1 & Hin1 & Hout1).
    { split_and!; try done.
      - intros r. rewrite <- app_assoc. apply Hdepth.
      - by apply apart_app.
      - by apply apart_app.
      - intros q data [Hq| ->]%prefix_snoc_inv; [|congruence].
        by rewrite (fs_wf_prefix_dir w q dst).
      - intros n' _ _. by apply fs_wf_absent_below. }
    exists w1. split_and!; try done.
    + intros [|n' r].
      * rewrite Hup1 by done. rewrite nfs_free_cons, Hnfs, Hd. cbn [negb andb nfs_free forallb].
        by rewrite overlay_Some.
      * replace (dst ++ n :: n' :: r) with ((dst ++ [n]) ++ n' :: r)
          by by rewrite <- app_assoc.
        replace (src ++ n :: n' :: r) with ((src ++ [n]) ++ n' :: r)
          by by rewrite <- app_assoc.
        rewrite Hin1. rewrite (nfs_free_cons n), Hnfs. by cbn [negb andb].
    + intros q Hq. destruct (decide (q `prefix_of` dst ++ [n])) as [Hp|Hp].
      * rewrite Hup1 by done. apply prefix_snoc_inv in Hp as [Hp| ->]; [|by destruct Hq].
        by rewrite (fs_wf_prefix_dir w q dst).
      * by apply Hout1.
  - destruct Hsrc as [[data|] Hsrc]; [|done].
    rewrite (copy_file_new _ _ data) by (by rewrite ?dirname_snoc).
    eexists. split; [done|].
    assert (Hst : ∀ q, stat (set_fs (<[dst ++ [n] := File data]> (fs w)) w) q
                       = if decide (dst ++ [n] = q) then Some (File data) else stat w q)
      by (intros q; apply stat_set_fs_insert).
    split_and!; try done.
    + apply fs_wf_insert; [done|by destruct dst|by rewrite dirname_snoc|].
      intros n'. left. by apply fs_wf_absent_below.
    + intros p Hp%Hmemo. rewrite Hst. case_decide; [congruence|done].
    + intros [|n' r]; rewrite Hst.
      * rewrite decide_True, nfs_free_cons, Hnfs, Hsrc by done.
        cbn [negb andb nfs_free forallb]. by rewrite overlay_Some.
      * rewrite decide_False.
        2:{ intros E. apply app_inv_head in E. done. }
        rewrite (fs_wf_below_file w (src ++ [n]) r n' data Hwf Hsrc)
          || (replace (src ++ n :: n' :: r) with ((src ++ [n]) ++ n' :: r)
                by (by rewrite <- app_assoc);
              rewrite (fs_wf_below_file w (src ++ [n]) r n' data Hwf Hsrc)).
        destruct (nfs_free _); by rewrite overlay_None.
    + intros q Hq. rewrite Hst. case_decide as E; [|done]. by destruct Hq; subst.
Qed.

Lemma copy_names_spec (names : list string) :
  ∀ w, NoDup names → fs_wf w → memo_ok w → stat w dst = Some Dir →
    (∀ n, n ∈ names → is_Some (stat w (src ++ [n]))) →
    (∀ n r, n ∈ names → stat w (src ++ n :: r) = Some Dir → (length r < depth)%nat) →
    (∀ n, n ∈ names → String.prefix ".nfs" n = false → stat w (dst ++ [n]) = None) →
    ∃ w', copy_names recur src dst names w = (Ok tt, w')
          ∧ fs_wf w' ∧ memo_ok w' ∧ recursion_limit w' = recursion_limit w
          ∧ (∀ n r, stat w' (dst ++ n :: r)
                    = (if bool_decide (n ∈ names) && nfs_free (n :: r)
                       then stat w (src ++ n :: r) else None)
                      ∪ stat w (dst ++ n :: r))
          ∧ (∀ q, (∀ n r, q ≠ dst ++ n :: r) → stat w' q = stat w q).
Proof.
  induction names as [|n rest IH]; intros w Hnd Hwf Hmemo Hdst Hsrc Hdepth Hfree.
  { exists w. split_and!; try done. intros n r.
    rewrite bool_decide_eq_false_2 by apply not_elem_of_nil.
    cbn [andb]. by rewrite overlay_None. }
  apply NoDup_cons in Hnd as [Hn Hnd].
  destruct (copy_names_one n w) as (w1 & Hrun1 & Hwf1 & Hmemo1 & Hrl1 & Hin1 & Hout1);
    try done.
  { apply Hsrc. left. }
  { intros r. apply Hdepth. left. }
  { apply Hfree. left. }
  assert (Hsrc1 : ∀ x, stat w1 (src ++ x) = stat w (src ++ x)).
  { intros x. apply Hout1. replace (src ++ x) with (src ++ x ++ []) by by rewrite app_nil_r.
    rewrite app_nil_r. intros Hp. by apply (apart_app dst src [n] x). }
  assert (Hdst1 : ∀ m r, m ≠ n → stat w1 (dst ++ m :: r) = stat w (dst ++ m :: r)).
  { intros m r Hm. apply Hout1.
    replace (dst ++ [n]) with (dst ++ n :: []) by done. by apply apart_siblings. }
  destruct (IH w1) as (w' & Hrun & Hwf' & Hmemo' & Hrl' & Hin' & Hout'); try done.
  { rewrite Hout1; [done|]. apply prefix_snoc_not. }
  { intros m Hm. rewrite Hsrc1. apply Hsrc. by right. }
  { intros m r Hm. rewrite Hsrc1. apply Hdepth. by right. }
  { intros m Hm Hnfs. rewrite Hdst1 by (by intros ->). apply Hfree; [by right|done]. }
  exists w'. rewrite copy_names_cons, Hrun1, Hrun. split_and!; try done.
  - congruence.
  - intros m r. rewrite Hin'. destruct (decide (m = n)) as [->|Hm].
    + rewrite (bool_decide_eq_false_2 (n ∈ rest)) by done. simpl.
      rewrite (bool_decide_eq_true_2 (n ∈ n :: rest)) by left. simpl.
      by rewrite Hin1, overlay_None.
    + rewrite Hsrc1, Hdst1 by done.
      rewrite (bool_decide_ext (m ∈ n :: rest) (m ∈ rest)); [done|].
      rewrite elem_of_cons. split; [by intros [?|?]|by right].
  - intros q Hq. rewrite Hout' by done. apply Hout1.
    intros [[|m r] ->]; [apply (Hq n []); by rewrite app_nil_r|].
    apply (Hq n (m :: r)). by rewrite <- app_assoc.
Qed.
End copy_names_correct.

Lemma not_prefix_longer (p r : pathname) (n : string) : ¬ p ++ n :: r `prefix_of` p.
Proof.
  intros Hp%prefix_length. rewrite length_app in Hp. simpl in Hp. lia.
Qed.

Lemma copy_tree_rec_spec (depth : nat) :
  ∀ src dst w,
    tree_copyable depth src dst w →
    ∃ w', copy_tree_rec depth src dst w = (Ok tt, w') ∧ tree_copied src dst w w'.
Proof.
  induction depth as [|depth IH];
    intros src dst w (Hwf & Hmemo & Hsrc & Hdepth & Hsd & Hds & Hnofile & Hfree).
  { specialize (Hdepth []). rewrite app_nil_r in Hdepth. specialize (Hdepth Hsrc).
    simpl in Hdepth. lia. }
  destruct (os_listdir_spec src w Hsrc) as (names & Hls & Hnd & Hnames).
  destruct (mkpath_spec dst w Hwf Hmemo Hnofile) as (w1 & Hmk & Hwf1 & Hmemo1 & Hrl1 & Hst1).
  assert (Hsrc1 : ∀ x, stat w1 (src ++ x) = stat w (src ++ x)).
  { intros x. rewrite Hst1, bool_decide_eq_false_2; [done|].
    intros Hp. apply Hsd. by eapply prefix_app_l. }
  assert (Hdst1 : ∀ n r, stat w1 (dst ++ n :: r) = stat w (dst ++ n :: r)).
  { intros n r. rewrite Hst1, bool_decide_eq_false_2; [done|]. apply not_prefix_longer. }
  destruct (copy_names_spec (copy_tree_rec depth) depth IH src dst Hsd Hds names w1)
    as (w' & Hrun & Hwf' & Hmemo' & Hrl' & Hin' & Hout'); try done.
  { by rewrite Hst1, bool_decide_eq_true_2. }
  { intros n Hn. rewrite Hsrc1. by apply Hnames. }
  { intros n r _. rewrite Hsrc1. intros Hd%Hdepth. simpl in Hd. lia. }
  { intros n Hn Hnfs. rewrite Hdst1. apply Hfree; [done|]. by apply Hnames. }
  exists w'. split.
  { cbn [copy_tree_rec]. unfold_M. unfold os_path_isdir, wrap_os_error.
    rewrite bool_decide_eq_true_2 by done. cbn [negb]. rewrite Hls. cbn [try_except].
    by rewrite Hmk. }
  split_and!; try done.
  - congruence.
  - intros q Hq. rewrite Hout'.
    + by rewrite Hst1, bool_decide_eq_true_2.
    + intros n r ->. by apply (not_prefix_longer dst r n).
  - intros n r. rewrite Hin', Hsrc1, Hdst1. f_equal.
    case_bool_decide as Hn; [done|]. cbn [andb].
    assert (Hnone : stat w (src ++ [n]) = None).
    { destruct (stat w (src ++ [n])) eqn:E; [|done]. destruct Hn. apply Hnames. by rewrite E. }
    replace (src ++ n :: r) with ((src ++ [n]) ++ r) by by rewrite <- app_assoc.
    rewrite fs_wf_absent_below by done. by destruct (nfs_free _).
  - intros q Hq1 Hq2. rewrite Hout'.
    + by rewrite Hst1, bool_decide_eq_false_2.
    + intros n r ->. apply Hq1. by apply prefix_app_r.
Qed.

(** ** What the copy can raise *)













(** ** [path_copy] on a directory *)

Lemma overlay_None_r {A : Type} (o : option A) : o ∪ None = o.
Proof. by destruct o. Qed.

Lemma fs_depth_bound (w : world) (p : pathname) :
  is_Some (stat w p) → (length p ≤ fs_depth w)%nat.
Proof.
  intros [i Hi]. unfold fs_depth.
  assert (Hin : p ∈ (map_to_list (fs w)).*1).
  { apply list_elem_of_fmap. exists (p, i). split; [done|]. by apply elem_of_map_to_list. }
  revert Hin. generalize ((map_to_list (fs w)).*1). intros l Hin.
  induction Hin as [p l|p q l Hin IH]; simpl.
  - apply Nat.le_max_l.
  - etrans; [by apply IH|apply Nat.le_max_r].
Qed.

Lemma fs_depth_below (w : world) (p r : pathname) (k : nat) :
  (fs_depth w < k)%nat → stat w (p ++ r) = Some Dir → (length r < k)%nat.
Proof.
  intros Hk Hs. assert (Hb : (length (p ++ r) ≤ fs_depth w)%nat).
  { apply fs_depth_bound. by rewrite Hs. }
  rewrite length_app in Hb. lia.
Qed.

Lemma memo_ok_empty (w : world) : path_created w = ∅ → memo_ok w.
Proof. intros E p. rewrite E. by intros ?%not_elem_of_empty. Qed.

Lemma path_copy_dir (fromm to : pathname) (project : Project) (w : world) :
  project_root project `prefix_of` to →
  tree_copyable (recursion_limit w) fromm to w →
  ∃ w', path_copy fromm to project w = (Ok tt, w') ∧ tree_copied fromm to w w'.
Proof.
  intros Hin%path_in_project_true Hcan.
  destruct (copy_tree_rec_spec _ _ _ _ Hcan) as (w' & Hrun & Hpost).
  exists w'. split; [|done]. unfold path_copy. rewrite Hin. unfold_M. simpl.
  destruct Hcan as (_ & _ & Hsrc & _). unfold os_path_isfile. by rewrite Hsrc.
Qed.

Lemma path_copy_dir_new (fromm to : pathname) (project : Project) (w : world) :
  fs_wf w → memo_ok w → project_root project `prefix_of` to →
  stat w fromm = Some Dir → stat w to = None → ¬ fromm `prefix_of` to →
  (∀ q data, q `prefix_of` to → stat w q ≠ Some (File data)) →
  (∀ r, stat w (fromm ++ r) = Some Dir → (length r < recursion_limit w)%nat) →
  ∃ w', path_copy fromm to project w = (Ok tt, w')
        ∧ (∀ r, stat w' (to ++ r) = if nfs_free r then stat w (fromm ++ r) else None)
        ∧ (∀ q, ¬ to `prefix_of` q →
                stat w' q = if bool_decide (q `prefix_of` to) then Some Dir else stat w q).
Proof.
  intros Hwf Hmemo Hin Hsrc Hto Hft Hnofile Hdepth.
  destruct (path_copy_dir fromm to project w Hin)
    as (w' & Hrun & _ & _ & _ & Hup & Hbelow & Hout).
  { split_and!; try done.
    - intros [r ->]. rewrite fs_wf_absent_below in Hsrc; done.
    - intros n _ _. by apply fs_wf_absent_below. }
  exists w'. split; [done|]. split.
  - intros [|n r].
    + rewrite !app_nil_r, Hsrc. by apply Hup.
    + rewrite Hbelow, (fs_wf_absent_below w to (n :: r)) by done.
      apply overlay_None_r.
  - intros q Hq. case_bool_decide as Hp; [by apply Hup|by apply Hout].
Qed.

(** ** The demo host satisfies the conditions *)

Lemma demo_world_wf : fs_wf demo_world.
Proof. apply fs_wf_check_sound. vm_compute. reflexivity. Qed.

Lemma demo_world_memo : memo_ok demo_world.
Proof. by apply memo_ok_empty. Qed.

Lemma demo_world_depth (p r : pathname) :
  stat demo_world (p ++ r) = Some Dir → (length r < recursion_limit demo_world)%nat.
Proof. apply fs_depth_below. vm_compute. lia. Qed.

(** ** Paths within the project *)

(** C2, as the code has it.  In a file system that is a tree of regular
    files and directories, all of them open to the process:
    - [path_rm] on a path of the project other than [/] at which a regular
      file or a directory exists, with no more levels of directories at and
      below it than the recursion budget has calls, removes it with all
      below it ([os.remove] for a regular file, [shutil.rmtree] otherwise)
      and changes nothing else;
    - [path_copy] of a regular file to a destination of the project that
      does not exist and whose parent directory does creates the copy there
      and changes nothing else;
    - [path_copy] of a directory to a destination of the project that does
      not exist, is not below the source and has no regular file above it,
      with no more levels of directories in the source tree than the
      recursion budget has calls and the memo of [mkpath] in step with the
      file system, creates the directories down to the destination and
      copies the tree there, leaving out the entries whose name starts with
      [.nfs]; nothing else changes. *)
Theorem path_rm_path_copy_within_project (project : Project) (w : world) :
  fs_wf w →
  (∀ p, project_root project `prefix_of` p → p ≠ [] → is_Some (stat w p) →
        (∀ r, stat w (p ++ r) = Some Dir → (length r < recursion_limit w)%nat) →
        path_rm p project w
        = (if os_path_isfile w p then os_remove p w else shutil_rmtree p w)
        ∧ ∃ w', path_rm p project w = (Ok tt, w')
                ∧ ∀ q, stat w' q = if bool_decide (p `prefix_of` q) then None else stat w q)
  ∧ (∀ fromm to data,
        project_root project `prefix_of` to →
        stat w fromm = Some (File data) → stat w to = None →
        stat w (dirname to) = Some Dir →
        ∃ w', path_copy fromm to project w = (Ok tt, w')
              ∧ ∀ q, stat w' q = if decide (to = q) then Some (File data) else stat w q)
  ∧ (∀ fromm to,
        project_root project `prefix_of` to →
        stat w fromm = Some Dir → stat w to = None →
        ¬ fromm `prefix_of` to →
        (∀ q data, q `prefix_of` to → stat w q ≠ Some (File data)) →
        (∀ r, stat w (fromm ++ r) = Some Dir → (length r < recursion_limit w)%nat) →
        memo_ok w →
        ∃ w', path_copy fromm to project w = (Ok tt, w')
              ∧ (∀ r, stat w' (to ++ r)
                      = if nfs_free r then stat w (fromm ++ r) else None)
              ∧ (∀ q, ¬ to `prefix_of` q →
                      stat w' q = if bool_decide (q `prefix_of` to)
                                  then Some Dir else stat w q)).
Proof.
  intros Hwf. split_and!.
  - intros p Hin Hp Hex Hdepth. split.
    + apply path_in_project_true in Hin. unfold path_rm. rewrite Hin. unfold_M. simpl.
      by destruct (os_path_isfile w p).
    + destruct (path_rm_existing p project w) as (w' & Hrm & _ & _ & _ & Hst); try done.
      by exists w'.
  - intros fromm to data Hin Hsrc Hto Hparent.
    eexists. split; [|intros q; apply stat_set_fs_insert].
    apply path_copy_file; try done; congruence.
  - intros fromm to Hin Hsrc Hto Hft Hnofile Hdepth Hmemo.
    by apply path_copy_dir_new.
Qed.

Lemma path_rm_path_copy_within_project_witness :
  (∃ w', path_rm ["proj"; "src"] demo_project demo_world = (Ok tt, w')
         ∧ ∀ q, stat w' q = if bool_decide (["proj"; "src"] `prefix_of` q)
                            then None else stat demo_world q)
  ∧ (∃ w', path_copy ["etc"; "hosts"] ["proj"; "hosts"] demo_project demo_world
           = (Ok tt, w')
           ∧ ∀ q, stat w' q = if decide (["proj"; "hosts"] = q)
                              then Some (File "127.0.0.1 localhost")
                              else stat demo_world q)
  ∧ (∃ w', path_copy ["proj"; "src"] ["proj"; "backup"; "src"] demo_project demo_world
           = (Ok tt, w')
           ∧ (∀ r, stat w' (["proj"; "backup"; "src"] ++ r)
                   = if nfs_free r then stat demo_world (["proj"; "src"] ++ r) else None)
           ∧ (∀ q, ¬ ["proj"; "backup"; "src"] `prefix_of` q →
                   stat w' q = if bool_decide (q `prefix_of` ["proj"; "backup"; "src"])
                               then Some Dir else stat demo_world q)).
Proof.
  destruct (path_rm_path_copy_within_project demo_project demo_world demo_world_wf)
    as (Hrm & Hfile & Hdir).
  split_and!.
  - apply Hrm; [by exists ["src"]|done|by exists Dir|apply demo_world_depth].
  - apply Hfile; [by exists ["hosts"]|reflexivity|reflexivity|reflexivity].
  - apply Hdir.
    + by exists ["backup"; "src"].
    + reflexivity.
    + reflexivity.
    + intros [k Hk]. discriminate Hk.
    + intros q data Hq Hs.
      destruct Hq as [k Hk].
      destruct q as [|a [|b [|c [|d q]]]]; simplify_eq/=; vm_compute in Hs; discriminate Hs.
    + apply demo_world_depth.
    + apply demo_world_memo.
Defined.

(** C2 as stated fails: a destination of the project whose parent directory
    is missing makes [shutil.copy2] raise [FileNotFoundError], and a
    directory copied to an existing regular file of the project makes
    [copy_tree] raise [DistutilsFileError]; both leave the state as it was.
    And with room for one call only, [path_rm] on a directory of the project
    that has a directory in it raises [RecursionError] and leaves both in
    place. *)
Lemma path_rm_path_copy_within_project_can_fail :
  (path_in_project ["proj"; "build"; "hosts"] demo_project = true
   ∧ os_path_isfile demo_world ["etc"; "hosts"] = true
   ∧ stat demo_world ["proj"; "build"; "hosts"] = None
   ∧ path_copy ["etc"; "hosts"] ["proj"; "build"; "hosts"] demo_project demo_world
     = (Raise (os_error ENOENT), demo_world))
  ∧ (path_in_project ["proj"; "index.html"] demo_project = true
     ∧ os_path_isdir demo_world ["proj"; "src"] = true
     ∧ os_path_isfile demo_world ["proj"; "index.html"] = true
     ∧ ∃ e, path_copy ["proj"; "src"] ["proj"; "index.html"] demo_project demo_world
            = (Raise e, demo_world)
            ∧ exn_class e = DistutilsFileError)
  ∧ (path_in_project ["proj"; "src"] demo_project = true
     ∧ os_path_isdir shallow_world ["proj"; "src"] = true
     ∧ ∃ e w', path_rm ["proj"; "src"] demo_project shallow_world = (Raise e, w')
               ∧ exn_class e = RecursionError
               ∧ stat w' ["proj"; "src"] = Some Dir
               ∧ stat w' ["proj"; "src"; "lib"] = Some Dir).
Proof.
  split_and!; try (vm_compute; reflexivity).
  - eexists. split; vm_compute; reflexivity.
  - eexists _, _. split_and!; vm_compute; reflexivity.
Qed.

(** ** A destination that already exists *)

(** C4, as the code has it: [path_copy] does not look whether the
    destination exists.  For a destination of the project,
    - a regular file copied to another path at which a regular file exists
      replaces its content;
    - a regular file copied to an existing directory is written into it
      under the source's base name, replacing a regular file of that name,
      when the source is not that very file and the directory has no
      directory of that name;
    - a directory copied to an existing directory is merged into it (what
      the source has, names starting with [.nfs] apart, is added below the
      destination, what the destination had besides is kept) when the file
      system is a tree, the memo of [mkpath] is in step with it, neither
      directory lies in the other, the source has no more levels than the
      recursion budget has calls, and no entry of the source ([.nfs] names
      apart) has the name of an entry of the destination.
    Each of these calls returns normally and changes nothing else. *)
Theorem path_copy_onto_existing (fromm to : pathname) (project : Project) (w : world) :
  project_root project `prefix_of` to →
  (∀ data old,
      stat w fromm = Some (File data) → stat w to = Some (File old) → fromm ≠ to →
      ∃ w', path_copy fromm to project w = (Ok tt, w')
            ∧ ∀ q, stat w' q = if decide (to = q) then Some (File data) else stat w q)
  ∧ (∀ data n,
      stat w fromm = Some (File data) → last fromm = Some n → stat w to = Some Dir →
      fromm ≠ to ++ [n] → stat w (to ++ [n]) ≠ Some Dir →
      ∃ w', path_copy fromm to project w = (Ok tt, w')
            ∧ ∀ q, stat w' q = if decide (to ++ [n] = q) then Some (File data) else stat w q)
  ∧ (fs_wf w → memo_ok w →
     stat w fromm = Some Dir → stat w to = Some Dir →
     ¬ fromm `prefix_of` to → ¬ to `prefix_of` fromm →
     (∀ r, stat w (fromm ++ r) = Some Dir → (length r < recursion_limit w)%nat) →
     (∀ n, String.prefix ".nfs" n = false →
           is_Some (stat w (fromm ++ [n])) → stat w (to ++ [n]) = None) →
     ∃ w', path_copy fromm to project w = (Ok tt, w')
           ∧ (∀ n r, stat w' (to ++ n :: r)
                     = (if nfs_free (n :: r) then stat w (fromm ++ n :: r) else None)
                       ∪ stat w (to ++ n :: r))
           ∧ (∀ q, ¬ to `prefix_of` q → stat w' q = stat w q)).
Proof.
  intros Hin. split_and!.
  - intros data old Hsrc Hto Hne.
    eexists. split; [|intros q; apply stat_set_fs_insert].
    apply path_copy_file; try done; congruence.
  - intros data n Hsrc Hlast Hto Hne Hnd.
    eexists. split; [|intros q; apply stat_set_fs_insert].
    by apply path_copy_file_into_dir.
  - intros Hwf Hmemo Hsrc Hto Hft Htf Hdepth Hfree.
    destruct (path_copy_dir fromm to project w Hin)
      as (w' & Hrun & _ & _ & _ & Hup & Hbelow & Hout).
    { split_and!; try done. intros q data Hq. by rewrite (fs_wf_prefix_dir w q to). }
    exists w'. split_and!; try done.
    intros q Hq. destruct (decide (q `prefix_of` to)) as [Hp|Hp]; [|by apply Hout].
    by rewrite Hup, (fs_wf_prefix_dir w q to).
Qed.

Lemma path_copy_onto_existing_witness :
  (∃ w', path_copy ["etc"; "hosts"] ["proj"; "index.html"] demo_project demo_world
         = (Ok tt, w')
         ∧ ∀ q, stat w' q = if decide (["proj"; "index.html"] = q)
                            then Some (File "127.0.0.1 localhost")
                            else stat demo_world q)
  ∧ (∃ w', path_copy ["proj"; "index.html"] ["proj"; "src"] demo_project demo_world
           = (Ok tt, w')
           ∧ ∀ q, stat w' q = if decide (["proj"; "src"; "index.html"] = q)
                              then Some (File "hello dot")
                              else stat demo_world q)
  ∧ (∃ w', path_copy ["etc"] ["proj"; "src"] demo_project demo_world = (Ok tt, w')
           ∧ (∀ n r, stat w' (["proj"; "src"] ++ n :: r)
                     = (if nfs_free (n :: r) then stat demo_world (["etc"] ++ n :: r)
                        else None)
                       ∪ stat demo_world (["proj"; "src"] ++ n :: r))
           ∧ (∀ q, ¬ ["proj"; "src"] `prefix_of` q → stat w' q = stat demo_world q)).
Proof.
  split_and!.
  - destruct (path_copy_onto_existing ["etc"; "hosts"] ["proj"; "index.html"]
                demo_project demo_world) as (H & _ & _); [by exists ["index.html"]|].
    apply (H _ "hello dot"); [reflexivity|reflexivity|discriminate].
  - destruct (path_copy_onto_existing ["proj"; "index.html"] ["proj"; "src"]
                demo_project demo_world) as (_ & H & _); [by exists ["src"]|].
    apply (H _ "index.html"); [reflexivity|reflexivity|reflexivity|discriminate|].
    vm_compute. discriminate.
  - destruct (path_copy_onto_existing ["etc"] ["proj"; "src"]
                demo_project demo_world) as (_ & _ & H); [by exists ["src"]|].
    apply H.
    + apply demo_world_wf.
    + apply demo_world_memo.
    + reflexivity.
    + reflexivity.
    + intros [k Hk]. discriminate Hk.
    + intros [k Hk]. discriminate Hk.
    + apply demo_world_depth.
    + intros n _ [i Hi].
      destruct (decide (n = "hosts")) as [->|Hn]; [reflexivity|].
      exfalso. revert Hi. unfold stat, demo_world. cbn [fs list_to_map foldr].
      rewrite !lookup_insert_ne by (intros E; simplify_eq/=; congruence).
      by rewrite lookup_empty.
Defined.

(** C4 as stated fails: with an existing destination in the project,
    [path_copy] returns normally after replacing the content of a regular
    file, and after merging a directory into a directory. *)
Lemma path_copy_overwrites_and_merges :
  (path_in_project ["proj"; "index.html"] demo_project = true
   ∧ stat demo_world ["proj"; "index.html"] = Some (File "hello dot")
   ∧ ∃ w', path_copy ["etc"; "hosts"] ["proj"; "index.html"] demo_project demo_world
           = (Ok tt, w')
           ∧ stat w' ["proj"; "index.html"] = Some (File "127.0.0.1 localhost"))
  ∧ (path_in_project ["proj"; "src"] demo_project = true
     ∧ stat demo_world ["proj"; "src"] = Some Dir
     ∧ stat demo_world ["proj"; "src"; "hosts"] = None
     ∧ ∃ w', path_copy ["etc"] ["proj"; "src"] demo_project demo_world = (Ok tt, w')
             ∧ stat w' ["proj"; "src"; "hosts"] = Some (File "127.0.0.1 localhost")
             ∧ stat w' ["proj"; "src"; "index.html"] = Some (File "hello src")).
Proof.
  split_and!; try (vm_compute; reflexivity).
  - eexists. split; vm_compute; reflexivity.
  - eexists. split_and!; vm_compute; reflexivity.
Qed.

(** ** The source of a copy is not checked *)



(** ** The abstract methods, as the contract words them *)

Lemma image_targets_spec (project : Project) (t : string * string) :
  t ∈ image_targets project
  ↔ (∃ s, s ∈ services project ∧ t = ("service/" +:+ s.1, service_image s.2))
    ∨ (∃ c image, c ∈ commands project ∧ command_image c.2 = Some image
                  ∧ t = ("command/" +:+ c.1, image)).
Proof.
  unfold image_targets. rewrite elem_of_app, list_elem_of_fmap, list_elem_of_omap.
  split.
  - intros [(s & -> & Hs)|(c & Hc & Hi)]; [left; eauto|right].
    destruct (command_image c.2) as [image|] eqn:E; [|done].
    simpl in Hi. simplify_eq. eauto.
  - intros [(s & Hs & ->)|(c & image & Hc & Hi & ->)]; [left; eauto|right].
    exists c. split; [done|]. by rewrite Hi.
Qed.

Lemma concat_fmap_omap {A B C : Type} (f : B → list C) (g : A → option B) (l : list A) :
  concat (f <$> omap g l)
  = concat ((λ a, match g a with Some x => f x | None => [] end) <$> l).
Proof.
  induction l as [|a l IH]; [done|]. cbn [omap list_omap fmap list_fmap concat].
  destruct (g a); cbn [fmap list_fmap concat]; by rewrite IH.
Qed.

Lemma pull_report_targets (b : backend) (line_reset : string) (project : Project) :
  concat (pull_report b line_reset <$> image_targets project)
  = concat ((λ s : string * Service,
               pull_report b line_reset ("service/" +:+ s.1, service_image s.2))
            <$> services project)
    ++ concat ((λ c : string * Command,
                  match command_image c.2 with
                  | Some image => pull_report b line_reset ("command/" +:+ c.1, image)
                  | None => []
                  end) <$> commands project).
Proof.
  unfold image_targets. rewrite fmap_app, concat_app, <- list_fmap_compose. f_equal.
  rewrite concat_fmap_omap. f_equal. apply list_fmap_ext. intros _ c _.
  by destruct (command_image c.2).
Qed.

Lemma pull_each_spec (b : backend) (line_reset : string) (targets : list (string * string)) :
  ∀ update e,
    (∀ t, t ∈ targets → t.2 ∉ broken_images b) →
    ∃ e', pull_each b line_reset targets update e
          = (Returned tt, update ++ concat (pull_report b line_reset <$> targets), e')
          ∧ service_states e' = service_states e
          ∧ containers e' = containers e
          ∧ ∀ image, image ∈ local_images e'
                     ↔ image ∈ local_images e
                       ∨ (image ∈ remote_images b ∧ image ∈ targets.*2).
Proof.
  induction targets as [|t rest IH]; intros update e Hfine; cbn [pull_each].
  { exists e. rewrite app_nil_r. split_and!; try done. intros image. split; [by left|].
    by intros [?|[_ ?%not_elem_of_nil]]. }
  assert (Hrest : ∀ t', t' ∈ rest → t'.2 ∉ broken_images b).
  { intros t' Ht'. apply Hfine. by right. }
  unfold fetch_image. rewrite decide_False by (apply Hfine; left).
  cbn [fmap list_fmap concat].
  destruct (decide (t.2 ∈ remote_images b)) as [Hin|Hout].
  - assert (Hrep : pull_report b line_reset t
                   = [pull_header t; pull_status line_reset t.2])
      by (unfold pull_report; by rewrite decide_True).
    rewrite Hrep.
    destruct (IH (update ++ [pull_header t; pull_status line_reset t.2])
                 (store_image t.2 e) Hrest) as (e' & -> & Hst & Hct & Himg).
    exists e'. rewrite <- app_assoc. split_and!; try done.
    intros image. rewrite Himg. cbn [store_image local_images fmap list_fmap].
    rewrite elem_of_union, elem_of_singleton, elem_of_cons. split.
    + intros [[->|?]|[? ?]]; auto.
    + intros [?|[? [->|?]]]; auto.
  - assert (Hrep : pull_report b line_reset t = [pull_header t; pull_warning])
      by (unfold pull_report; by rewrite decide_False).
    rewrite Hrep.
    destruct (IH (update ++ [pull_header t; pull_warning]) e Hrest)
      as (e' & -> & Hst & Hct & Himg).
    exists e'. rewrite <- app_assoc. split_and!; try done.
    intros image. rewrite Himg. cbn [fmap list_fmap]. rewrite elem_of_cons. split.
    + intros [?|[? ?]]; auto.
    + intros [?|[? [->|?]]]; auto. done.
Qed.

Lemma pull_each_failed (b : backend) (line_reset : string) (targets : list (string * string)) :
  ∀ update e err update' e',
    pull_each b line_reset targets update e = (Failed err, update', e') →
    ∃ t, t ∈ targets ∧ t.2 ∈ broken_images b.
Proof.
  induction targets as [|t rest IH]; intros update e err update' e'; cbn [pull_each];
    [done|].
  unfold fetch_image. destruct (decide (t.2 ∈ broken_images b)) as [Hb|_].
  { intros _. exists t. split; [left|done]. }
  destruct (decide (t.2 ∈ remote_images b));
    intros (t' & Ht' & Hb')%IH; exists t'; split; try done; by right.
Qed.

(** C6: [pull_images] does not fail over an image that the repository does
    not have.  The call fails only when the runtime itself fails on an image
    of one of the project's services or commands.  When it does not, the
    call returns, and what [update_func] has received is, for each service
    in turn and then for each command that names an image, the header of
    the image followed by the status of its transfer or, for an image the
    repository does not have, by the warning, and [Done.] at the end: after
    a warning the remaining images are still processed.  The local store
    gains the images of the services and commands that the repository has,
    and nothing else; services and containers are left alone. *)
Theorem pull_images_reports_missing (b : backend) (project : Project)
    (line_reset : string) (e : engine) :
  (∀ err update e',
      pull_images b project line_reset e = (Failed err, update, e') →
      (∃ s, s ∈ services project ∧ service_image s.2 ∈ broken_images b)
      ∨ (∃ c image, c ∈ commands project ∧ command_image c.2 = Some image
                    ∧ image ∈ broken_images b))
  ∧ ((∀ s, s ∈ services project → service_image s.2 ∉ broken_images b) →
     (∀ c image, c ∈ commands project → command_image c.2 = Some image →
                 image ∉ broken_images b) →
     ∃ e',
       pull_images b project line_reset e
       = (Returned tt,
          concat ((λ s : string * Service,
                     pull_report b line_reset ("service/" +:+ s.1, service_image s.2))
                  <$> services project)
          ++ concat ((λ c : string * Command,
                        match command_image c.2 with
                        | Some image =>
                            pull_report b line_reset ("command/" +:+ c.1, image)
                        | None => []
                        end) <$> commands project)
          ++ ["Done."],
          e')
       ∧ service_states e' = service_states e
       ∧ containers e' = containers e
       ∧ ∀ image,
           image ∈ local_images e'
           ↔ image ∈ local_images e
             ∨ (image ∈ remote_images b
                ∧ ((∃ s, s ∈ services project ∧ service_image s.2 = image)
                   ∨ (∃ c, c ∈ commands project ∧ command_image c.2 = Some image)))).
Proof.
  split.
  - intros err update e'. unfold pull_images.
    destruct (pull_each b line_reset (image_targets project) [] e)
      as [[[[]|err0] update0] e0] eqn:E; [done|].
    intros _. apply pull_each_failed in E as (t & Ht & Hb).
    apply image_targets_spec in Ht as [(s & Hs & ->)|(c & image & Hc & Hi & ->)];
      [left|right]; eauto.
  - intros Hsv Hcm. unfold pull_images.
    destruct (pull_each_spec b line_reset (image_targets project) [] e)
      as (e' & -> & Hst & Hct & Himg).
    { intros t [(s & Hs & ->)|(c & image & Hc & Hi & ->)]%image_targets_spec; simpl.
      - by apply Hsv.
      - by apply (Hcm c). }
    exists e'. rewrite app_nil_l, pull_report_targets, <- app_assoc.
    split_and!; try done.
    intros image. rewrite Himg.
    assert (Hfst : image ∈ (image_targets project).*2
                   ↔ (∃ s, s ∈ services project ∧ service_image s.2 = image)
                     ∨ (∃ c, c ∈ commands project ∧ command_image c.2 = Some image)).
    { rewrite list_elem_of_fmap. split.
      - intros (t & -> & [(s & Hs & ->)|(c & i & Hc & Hi & ->)]%image_targets_spec);
          [left|right]; eauto.
      - intros [(s & Hs & <-)|(c & Hc & Hi)].
        + exists ("service/" +:+ s.1, service_image s.2). split; [done|].
          apply image_targets_spec. left. eauto.
        + exists ("command/" +:+ c.1, image). split; [done|].
          apply image_targets_spec. right. eauto. }
    by rewrite Hfst.
Qed.

Lemma pull_images_reports_missing_witness :
  ∃ e',
    pull_images demo_backend demo_project newline demo_engine
    = (Returned tt,
       ["[service/web] Pulling 'nginx':";
        "    Pulling nginx" +:+ newline +:+ "    Done pulling nginx";
        "[service/env] Pulling 'busybox':";
        "    Pulling busybox" +:+ newline +:+ "    Done pulling busybox";
        "[command/npm] Pulling 'node':";
        "    Warning: Image not found in repository.";
        "Done."],
       e')
    ∧ service_states e' = service_states demo_engine
    ∧ containers e' = containers demo_engine.
Proof.
  destruct (pull_images_reports_missing demo_backend demo_project newline demo_engine)
    as [_ H].
  destruct H as (e' & Hrun & Hst & Hct & _).
  - intros s _. apply not_elem_of_empty.
  - intros c image _ _. apply not_elem_of_empty.
  - exists e'. split_and!; [|done..]. rewrite Hrun. reflexivity.
Defined.

Lemma each_service_settled (step : string → engine → list OperationResult * engine)
    (names : list string) (e : engine) :
  (∀ n, n ∈ names → step n e = ([success n], e)) →
  each_service step names e = (success <$> names, e).
Proof.
  induction names as [|n rest IH]; intros Hstep; [done|].
  cbn [each_service]. rewrite Hstep by left.
  rewrite IH; [done|]. intros m Hm. apply Hstep. by right.
Qed.

Lemma forallb_declared (project : Project) (names : list string) :
  (∀ n, n ∈ names → n ∈ (services project).*1) →
  forallb (declared project) names = true.
Proof.
  intros Hall. apply forallb_forall. intros n Hn%list_elem_of_In.
  apply bool_decide_eq_true. by apply Hall.
Qed.

Lemma state_of_set_state (project : Project) (m n : string) (st : ServiceState)
    (e : engine) :
  state_of (set_state project m st e) project n
  = if decide (m = n) then st else state_of e project n.
Proof.
  unfold state_of, set_state. cbn [service_states].
  case_decide as E; [subst; by rewrite lookup_insert_eq|].
  rewrite lookup_insert_ne; [done|]. congruence.
Qed.

Lemma state_of_set_state_eq (project : Project) (n : string) (st : ServiceState)
    (e : engine) :
  state_of (set_state project n st e) project n = st.
Proof. by rewrite state_of_set_state, decide_True. Qed.

Lemma start_service_other (b : backend) (project : Project) (m n : string)
    (e e' : engine) (q : list OperationResult) :
  m ≠ n → start_service b project m e = (q, e') →
  filter (λ x, target x = n) q = []
  ∧ state_of e' project n = state_of e project n
  ∧ filter (λ c, c = (project_name project, n)) (containers e')
    = filter (λ c, c = (project_name project, n)) (containers e).
Proof.
  intros Hne. unfold start_service.
  assert (Hc : (project_name project, m) ≠ (project_name project, n)) by congruence.
  assert (Hset : ∀ st, state_of (set_state project m st e) project n
                       = state_of e project n).
  { intros st. by rewrite state_of_set_state, decide_False. }
  destruct (state_of e project m), (decide (m ∈ failing_services b));
    intros; simplify_eq; cbn [add_container set_state containers];
    rewrite ?filter_cons_False, ?filter_nil by (cbn; congruence);
    split_and!; try done; apply Hset.
Qed.

Lemma stop_service_other (project : Project) (m n : string)
    (e e' : engine) (q : list OperationResult) :
  m ≠ n → stop_service project m e = (q, e') →
  filter (λ x, target x = n) q = []
  ∧ state_of e' project n = state_of e project n
  ∧ filter (λ c, c = (project_name project, n)) (containers e')
    = filter (λ c, c = (project_name project, n)) (containers e).
Proof.
  intros Hne. unfold stop_service.
  assert (Hfilter : ∀ l : list (string * string),
            filter (λ c, c = (project_name project, n))
              (filter (λ c, c ≠ (project_name project, m)) l)
            = filter (λ c, c = (project_name project, n)) l).
  { intros l. rewrite list_filter_filter. apply list_filter_iff.
    intros c. split; [by intros [? ?]|]. intros ->. split; [done|]. congruence. }
  assert (Hset : ∀ st, state_of (set_state project m st e) project n
                       = state_of e project n).
  { intros st. by rewrite state_of_set_state, decide_False. }
  destruct (state_of e project m);
    intros; simplify_eq; cbn [remove_container set_state containers];
    rewrite ?filter_cons_False, ?filter_nil by (cbn; congruence);
    split_and!; try done; try apply Hfilter; apply Hset.
Qed.

Section each_service_per_service.
Variables (project : Project) (n : string).
Variables (step : string → engine → list OperationResult * engine) (st : ServiceState).
Hypothesis step_settled : ∀ e, state_of e project n = st → step n e = ([success n], e).
Hypothesis step_other : ∀ m e e' q,
  m ≠ n → step m e = (q, e') →
  filter (λ x, target x = n) q = []
  ∧ state_of e' project n = state_of e project n
  ∧ filter (λ c, c = (project_name project, n)) (containers e')
    = filter (λ c, c = (project_name project, n)) (containers e).

Lemma each_service_keeps (names : list string) :
  ∀ e q e', state_of e project n = st →
    each_service step names e = (q, e') →
    state_of e' project n = st
    ∧ filter (λ x, target x = n) q = success <$> filter (λ m, m = n) names
    ∧ filter (λ c, c = (project_name project, n)) (containers e')
      = filter (λ c, c = (project_name project, n)) (containers e).
Proof.
  induction names as [|m rest IH]; intros e q e' Hst; cbn [each_service].
  { by intros [= <- <-]. }
  destruct (step m e) as [q1 e1] eqn:E1.
  destruct (each_service step rest e1) as [q2 e2] eqn:E2.
  intros [= <- <-]. rewrite filter_app.
  destruct (decide (m = n)) as [->|Hne].
  - rewrite step_settled in E1 by done. injection E1 as <- <-.
    destruct (IH _ _ _ Hst E2) as (Hst2 & Hq2 & Hc2).
    rewrite Hq2, !filter_cons_True by done. by rewrite filter_nil.
  - destruct (step_other _ _ _ _ Hne E1) as (Hq1 & Hst1 & Hc1).
    destruct (IH e1 q2 e2 (eq_trans Hst1 Hst) E2) as (Hst2 & Hq2 & Hc2).
    rewrite Hq1, Hq2, filter_cons_False by done. split_and!; [done..|congruence].
Qed.

Hypothesis step_reaches : ∀ e e' q, step n e = (q, e') → state_of e' project n = st.

Lemma each_service_reaches (names : list string) :
  ∀ e q e', n ∈ names → each_service step names e = (q, e') →
            state_of e' project n = st.
Proof.
  induction names as [|m rest IH]; intros e q e' Hn; cbn [each_service].
  { by apply not_elem_of_nil in Hn. }
  destruct (step m e) as [q1 e1] eqn:E1.
  destruct (each_service step rest e1) as [q2 e2] eqn:E2.
  intros [= <- <-].
  destruct (decide (m = n)) as [->|Hne].
  - apply step_reaches in E1. by destruct (each_service_keeps _ _ _ _ E1 E2).
  - apply elem_of_cons in Hn as [->|Hn]; [done|]. by eapply IH.
Qed.
End each_service_per_service.

Lemma each_service_terminal (step : string → engine → list OperationResult * engine)
    (names : list string) :
  (∀ m e, target <$> filter (λ x, is_terminal x = true) (step m e).1 = [m]) →
  ∀ e, target <$> filter (λ x, is_terminal x = true) (each_service step names e).1
       = names.
Proof.
  intros Hstep. induction names as [|m rest IH]; intros e; cbn [each_service]; [done|].
  specialize (Hstep m e). destruct (step m e) as [q1 e1].
  specialize (IH e1). destruct (each_service step rest e1) as [q2 e2].
  cbn [fst] in *. by rewrite filter_app, fmap_app, Hstep, IH.
Qed.

Lemma start_service_terminal (b : backend) (project : Project) (m : string) (e : engine) :
  target <$> filter (λ x, is_terminal x = true) (start_service b project m e).1 = [m].
Proof.
  unfold start_service.
  by destruct (state_of e project m), (decide (m ∈ failing_services b)).
Qed.

Lemma stop_service_terminal (project : Project) (m : string) (e : engine) :
  target <$> filter (λ x, is_terminal x = true) (stop_service project m e).1 = [m].
Proof. unfold stop_service. by destruct (state_of e project m). Qed.

(** C7: [start_project] and [stop_project] are idempotent service by
    service, whatever else the call is asked for.  For declared names the
    call returns its queue, with one terminal result per requested service
    in the order of the request.  For a service that is [Running] when
    [start_project] is called, in a call that may start others: it is
    [Running] afterwards, the queue has for it nothing but one terminal
    success per time it was named, and the containers of that service are
    the ones it had, so none is created twice.  Every requested service
    that the backend can start is [Running] afterwards, so that calling
    again finds it so.  When all requested services are [Running] already
    the call changes nothing at all.  The same holds for [stop_project] and
    [Stopped]. *)
Theorem start_stop_idempotent (b : backend) (project : Project)
    (names : list string) (e : engine) :
  (∀ n, n ∈ names → n ∈ (services project).*1) →
  (∃ q e',
      start_project b project names e = (Returned q, e')
      ∧ target <$> filter (λ x, is_terminal x = true) q = names
      ∧ (∀ n, state_of e project n = Running →
              state_of e' project n = Running
              ∧ filter (λ x, target x = n) q = success <$> filter (λ m, m = n) names
              ∧ filter (λ c, c = (project_name project, n)) (containers e')
                = filter (λ c, c = (project_name project, n)) (containers e))
      ∧ (∀ n, n ∈ names → n ∉ failing_services b → state_of e' project n = Running)
      ∧ ((∀ n, n ∈ names → state_of e project n = Running) →
         q = success <$> names ∧ e' = e))
  ∧ (∃ q e',
        stop_project project names e = (Returned q, e')
        ∧ target <$> filter (λ x, is_terminal x = true) q = names
        ∧ (∀ n, state_of e project n = Stopped →
                state_of e' project n = Stopped
                ∧ filter (λ x, target x = n) q = success <$> filter (λ m, m = n) names
                ∧ filter (λ c, c = (project_name project, n)) (containers e')
                  = filter (λ c, c = (project_name project, n)) (containers e))
        ∧ (∀ n, n ∈ names → state_of e' project n = Stopped)
        ∧ ((∀ n, n ∈ names → state_of e project n = Stopped) →
           q = success <$> names ∧ e' = e)).
Proof.
  intros Hdecl.
  assert (Hrun : ∀ n e0, state_of e0 project n = Running →
                         start_service b project n e0 = ([success n], e0)).
  { intros n e0 Hn. unfold start_service. by rewrite Hn. }
  assert (Hstop : ∀ n e0, state_of e0 project n = Stopped →
                          stop_service project n e0 = ([success n], e0)).
  { intros n e0 Hn. unfold stop_service. by rewrite Hn. }
  split.
  - unfold start_project. rewrite forallb_declared by done.
    destruct (each_service (start_service b project) names e) as [q e'] eqn:E.
    exists q, e'. split_and!; [done| | | |].
    + pose proof (each_service_terminal (start_service b project) names
                    (start_service_terminal b project) e) as Ht.
      by rewrite E in Ht.
    + intros n Hn.
      apply (each_service_keeps project n (start_service b project) Running
               (Hrun n) (λ m, start_service_other b project m n) names e q e' Hn E).
    + intros n Hn Hok.
      apply (each_service_reaches project n (start_service b project) Running
               (Hrun n) (λ m, start_service_other b project m n)) with names e q;
        [|done..].
      intros e0 e1 q1. unfold start_service. rewrite decide_False by done.
      destruct (state_of e0 project n) eqn:E0; intros; simplify_eq; try done;
        apply (state_of_set_state_eq project n Running e0).
    + intros Hall. rewrite each_service_settled in E; [by simplify_eq|].
      intros n Hn. by apply Hrun, Hall.
  - unfold stop_project. rewrite forallb_declared by done.
    destruct (each_service (stop_service project) names e) as [q e'] eqn:E.
    exists q, e'. split_and!; [done| | | |].
    + pose proof (each_service_terminal (stop_service project) names
                    (stop_service_terminal project) e) as Ht.
      by rewrite E in Ht.
    + intros n Hn.
      apply (each_service_keeps project n (stop_service project) Stopped
               (Hstop n) (λ m, stop_service_other project m n) names e q e' Hn E).
    + intros n Hn.
      apply (each_service_reaches project n (stop_service project) Stopped
               (Hstop n) (λ m, stop_service_other project m n)) with names e q;
        [|done..].
      intros e0 e1 q1. unfold stop_service.
      destruct (state_of e0 project n) eqn:E0; intros; simplify_eq; try done;
        apply (state_of_set_state_eq project n Stopped e0).
    + intros Hall. rewrite each_service_settled in E; [by simplify_eq|].
      intros n Hn. by apply Hstop, Hall.
Qed.

Lemma start_stop_idempotent_witness :
  (∃ q e',
      start_project demo_backend demo_project ["web"; "env"; "web"] demo_engine
      = (Returned q, e')
      ∧ state_of e' demo_project "web" = Running
      ∧ filter (λ x, target x = "web") q = [success "web"; success "web"]
      ∧ filter (λ c, c = ("demo", "web")) (containers e') = [("demo", "web")])
  ∧ (∃ q e',
        stop_project demo_project ["web"; "env"] demo_engine = (Returned q, e')
        ∧ state_of e' demo_project "web" = Stopped
        ∧ state_of e' demo_project "env" = Stopped
        ∧ filter (λ x, target x = "env") q = [success "env"]).
Proof.
  split.
  - destruct (start_stop_idempotent demo_backend demo_project ["web"; "env"; "web"]
                demo_engine) as [(q & e' & Hrun & _ & Hkeep & _) _].
    { intros n Hn. repeat (apply elem_of_cons in Hn as [->|Hn]);
        [vm_compute; left|vm_compute; right; left|vm_compute; left|].
      by apply not_elem_of_nil in Hn. }
    destruct (Hkeep "web") as (Hst & Hq & Hc); [reflexivity|].
    exists q, e'. split_and!; [done|done|exact Hq|exact Hc].
  - destruct (start_stop_idempotent demo_backend demo_project ["web"; "env"]
                demo_engine) as [_ (q & e' & Hrun & _ & Hkeep & Hreach & _)].
    { intros n Hn. exact Hn. }
    destruct (Hkeep "env") as (Hst & Hq & Hc); [reflexivity|].
    exists q, e'. split_and!; [done| |done|exact Hq].
    apply Hreach. left.
Defined.

(** ** What a call leaves alone, whatever its outcome *)

Lemma changes_within_refl (dst : pathname) (w : world) : changes_within dst w w.
Proof. intros q _. by left. Qed.

Lemma changes_within_trans (dst : pathname) (w1 w2 w3 : world) :
  changes_within dst w1 w2 → changes_within dst w2 w3 → changes_within dst w1 w3.
Proof.
  intros H12 H23 q Hq.
  destruct (H12 q Hq) as [E12|(Hp & Hn & Hd)], (H23 q Hq) as [E23|(Hp' & Hn' & Hd')].
  - left. congruence.
  - right. split_and!; congruence.
  - right. split_and!; congruence.
  - congruence.
Qed.

Lemma changes_within_below (dst x : pathname) (w w' : world) :
  changes_within (dst ++ x) w w' → changes_within dst w w'.
Proof.
  intros H q Hq. destruct (H q) as [E|(Hp & Hn & Hd)].
  - intros Hp. apply Hq. by eapply prefix_app_l.
  - by left.
  - right. split_and!; try done.
    destruct (prefix_weak_total q dst (dst ++ x)); [done|by apply prefix_app_r|done..].
Qed.

Lemma changes_within_same_fs (dst : pathname) (w w' : world) :
  fs w' = fs w → changes_within dst w w'.
Proof. intros E q _. left. unfold stat. by rewrite E. Qed.

Lemma os_mkdir_frame (p : pathname) (w w' : world) (r : result unit) :
  os_mkdir p w = (r, w') →
  ∀ q, stat w' q = stat w q ∨ (q = p ∧ stat w q = None ∧ stat w' q = Some Dir).
Proof.
  unfold os_mkdir. intros H q.
  destruct (stat w p) eqn:Hp; [simplify_eq; by left|].
  destruct (os_path_isdir w (dirname p)); simplify_eq; [|by left].
  rewrite stat_set_fs_insert. case_decide; [subst; by right|by left].
Qed.

Lemma os_mkdir_raise_same (p : pathname) (w w' : world) (e : exn) :
  os_mkdir p w = (Raise e, w') → w' = w.
Proof. unfold os_mkdir. intros H. repeat case_match; by simplify_eq. Qed.

Lemma mkpath_tails_frame (tails : list string) :
  ∀ head w w' r, mkpath_tails head tails w = (r, w') →
    ∀ q, stat w' q = stat w q
         ∨ (q `prefix_of` head ++ tails ∧ stat w q = None ∧ stat w' q = Some Dir).
Proof.
  induction tails as [|d ds IH]; intros head w w' r; cbn [mkpath_tails]; unfold_M.
  { intros; simplify_eq. by left. }
  replace (head ++ d :: ds) with ((head ++ [d]) ++ ds) by by rewrite <- app_assoc.
  case_bool_decide; [apply IH|].
  unfold try_except.
  destruct (os_mkdir (head ++ [d]) w) as [[[]|e0] w0] eqn:E.
  - intros Hrest q. apply IH with (q := q) in Hrest.
    change (stat (add_path_created (head ++ [d]) w0) q) with (stat w0 q) in Hrest.
    destruct (os_mkdir_frame _ _ _ _ E q) as [E0|(-> & Hn & Hd)];
      destruct Hrest as [E1|(Hp1 & Hn1 & Hd1)].
    + left. congruence.
    + right. split_and!; congruence.
    + right. split_and!; [by apply prefix_app_r|done|congruence].
    + congruence.
  - apply os_mkdir_raise_same in E as ->.
    destruct (issubclass _ _); [|intros; simplify_eq; by left].
    destruct (negb _); [intros; simplify_eq; by left|].
    intros Hrest q. apply IH with (q := q) in Hrest. exact Hrest.
Qed.

Lemma mkpath_frame (name : pathname) (w w' : world) (r : result unit) :
  mkpath name w = (r, w') →
  ∀ q, stat w' q = stat w q
       ∨ (q `prefix_of` name ∧ stat w q = None ∧ stat w' q = Some Dir).
Proof.
  unfold mkpath. unfold_M.
  destruct (os_path_isdir w name); [intros; simplify_eq; by left|].
  case_bool_decide as Hc; [intros; simplify_eq; by left|].
  intros H q. apply mkpath_tails_frame with (q := q) in H. by rewrite take_drop in H.
Qed.

Lemma write_file_frame (p : pathname) (data : string) (w w' : world) (r : result unit) :
  write_file p data w = (r, w') → ∀ q, q ≠ p → stat w' q = stat w q.
Proof.
  unfold write_file. intros H q Hq.
  repeat case_match; simplify_eq; try done; by rewrite stat_set_fs_insert, decide_False.
Qed.

Lemma os_remove_frame (p : pathname) (w w' : world) (r : result unit) :
  os_remove p w = (r, w') → ∀ q, q ≠ p → stat w' q = stat w q.
Proof.
  unfold os_remove. intros H q Hq.
  repeat case_match; simplify_eq; try done; by rewrite stat_set_fs_delete, decide_False.
Qed.

Lemma read_file_same (p : pathname) (w w' : world) (r : result string) :
  read_file p w = (r, w') → w' = w.
Proof. unfold read_file. intros H. repeat case_match; by simplify_eq. Qed.

Lemma os_listdir_same (p : pathname) (w w' : world) (r : result (list string)) :
  os_listdir p w = (r, w') → w' = w.
Proof. unfold os_listdir. intros H. repeat case_match; by simplify_eq. Qed.

Lemma wrap_os_error_state {A : Type} (c : M A) (msg : string) (w w' : world) (r : result A) :
  wrap_os_error c msg w = (r, w') → ∃ r0, c w = (r0, w').
Proof.
  unfold wrap_os_error, try_except, raise. destruct (c w) as [[a|e] w0].
  - intros; simplify_eq. eauto.
  - destruct (issubclass _ _); intros; simplify_eq; eauto.
Qed.

Lemma copy_file_frame (src dst : pathname) (w w' : world) (r : result unit) :
  copy_file src dst w = (r, w') → ∀ q, ¬ dst `prefix_of` q → stat w' q = stat w q.
Proof.
  unfold copy_file, _copy_file_contents. unfold_M.
  destruct (negb _); [intros; by simplify_eq|].
  set (dst' := if os_path_isdir w dst then _ else _).
  assert (Hdst' : dst `prefix_of` dst').
  { unfold dst'. destruct (os_path_isdir w dst); [by apply prefix_app_r|done]. }
  intros H q Hq. assert (Hne : q ≠ dst') by (by intros ->).
  destruct (wrap_os_error (read_file src) _ w) as [[data|e0] w0] eqn:E1;
    apply wrap_os_error_state in E1 as [r0 ->%read_file_same]; [|by simplify_eq].
  destruct (os_path_exists w dst').
  - destruct (wrap_os_error (os_remove dst') _ w) as [[[]|e0] w1] eqn:E2;
      apply wrap_os_error_state in E2 as [r1 E2].
    + apply wrap_os_error_state in H as [r2 H].
      rewrite (write_file_frame _ _ _ _ _ H q Hne). by eapply os_remove_frame.
    + simplify_eq. by eapply os_remove_frame.
  - apply wrap_os_error_state in H as [r2 H]. by eapply write_file_frame.
Qed.

Lemma copy_names_frame (recur : pathname → pathname → M unit)
    (src dst : pathname) (names : list string) :
  (∀ s d w w' r, recur s d w = (r, w') → changes_within d w w') →
  ∀ w w' r, copy_names recur src dst names w = (r, w') → changes_within dst w w'.
Proof.
  intros Hrec. induction names as [|n rest IH]; intros w w' r.
  { cbn. unfold_M. intros; simplify_eq. apply changes_within_refl. }
  rewrite copy_names_cons.
  assert (Hone : ∀ r0 w0, copy_names recur src dst [n] w = (r0, w0) →
                          changes_within dst w w0).
  { intros r0 w0. cbn [copy_names]. unfold_M.
    destruct (String.prefix ".nfs" n); [intros; simplify_eq; apply changes_within_refl|].
    destruct (os_path_isdir w (src ++ [n])).
    - destruct (recur _ _ w) as [[[]|e0] w1] eqn:E; intros; simplify_eq;
        apply (changes_within_below dst [n]); by eapply Hrec.
    - destruct (copy_file _ _ w) as [[[]|e0] w1] eqn:E; intros; simplify_eq;
        intros q Hq; left; eapply copy_file_frame; [done| |done|];
        intros Hp; apply Hq; by eapply prefix_app_l. }
  destruct (copy_names recur src dst [n] w) as [[[]|e0] w0] eqn:E.
  - intros Hrest. eapply changes_within_trans; [by eapply Hone|by eapply IH].
  - intros; simplify_eq. by eapply Hone.
Qed.

Lemma copy_tree_rec_frame (depth : nat) :
  ∀ src dst w w' r, copy_tree_rec depth src dst w = (r, w') → changes_within dst w w'.
Proof.
  induction depth as [|depth IH]; intros src dst w w' r; cbn [copy_tree_rec]; unfold_M.
  { intros; simplify_eq. apply changes_within_refl. }
  destruct (negb _); [intros; simplify_eq; apply changes_within_refl|].
  destruct (wrap_os_error (os_listdir src) _ w) as [[names|e0] w0] eqn:E1;
    apply wrap_os_error_state in E1 as [r0 ->%os_listdir_same];
    [|intros; simplify_eq; apply changes_within_refl].
  destruct (mkpath dst w) as [[[]|e0] w1] eqn:E2.
  - intros Hrest. eapply changes_within_trans; [|by eapply copy_names_frame].
    intros q _. by eapply mkpath_frame.
  - intros; simplify_eq. intros q _. by eapply mkpath_frame.
Qed.

Lemma only_below_refl (p : pathname) (w : world) : only_below p w w.
Proof. by split_and!. Qed.

Lemma only_below_trans (p : pathname) (w1 w2 w3 : world) :
  only_below p w1 w2 → only_below p w2 w3 → only_below p w1 w3.
Proof.
  intros (H12 & Hwf12 & Hm12 & Hr12) (H23 & Hwf23 & Hm23 & Hr23).
  split_and!; [|auto|congruence..]. intros q Hq. by rewrite H23, H12.
Qed.

Lemma only_below_up (p x : pathname) (w w' : world) :
  p `prefix_of` x → only_below x w w' → only_below p w w'.
Proof.
  intros Hpx (H & Hwf & Hm & Hr). split_and!; try done.
  intros q Hq. apply H. intros Hx. apply Hq. by etrans.
Qed.

Lemma os_remove_only (p : pathname) (w w' : world) (r : result unit) :
  os_remove p w = (r, w') → only_below p w w'.
Proof.
  unfold os_remove. destruct (stat w p) as [[data|]|] eqn:Hp; intros; simplify_eq;
    try apply only_below_refl.
  split_and!; try done.
  - intros q Hq. rewrite stat_set_fs_delete, decide_False; [done|]. by intros ->.
  - intros Hwf. apply fs_wf_delete; [done| |].
    + intros ->. destruct Hwf as [Hroot _]. congruence.
    + intros n. by apply (fs_wf_below_file w p [] n data).
Qed.

Lemma os_rmdir_only (p : pathname) (w w' : world) (r : result unit) :
  os_rmdir p w = (r, w') → only_below p w w'.
Proof.
  unfold os_rmdir. destruct (stat w p) as [[data|]|] eqn:Hp;
    [intros; simplify_eq; apply only_below_refl| |
     intros; simplify_eq; apply only_below_refl].
  destruct (decide (p = [])) as [->|Hne]; [intros; simplify_eq; apply only_below_refl|].
  destruct (omap _ _) as [|n l] eqn:E; intros; simplify_eq; [|apply only_below_refl].
  split_and!; try done.
  - intros q Hq. rewrite stat_set_fs_delete, decide_False; [done|]. by intros ->.
  - intros Hwf. apply fs_wf_delete; [done..|]. intros n.
    destruct (stat w (p ++ [n])) eqn:En; [|done].
    assert (Hn : n ∈ omap (child_name p) (map_to_list (fs w)).*1).
    { apply entries_spec. by rewrite En. }
    rewrite E in Hn. by apply not_elem_of_nil in Hn.
Qed.

Lemma rm_entries_only (recur : pathname → M unit) (p : pathname) (names : list string) :
  (∀ x w w' r, recur x w = (r, w') → only_below x w w') →
  ∀ w w' r, rm_entries recur p names w = (r, w') → only_below p w w'.
Proof.
  intros Hrec. induction names as [|n rest IH]; intros w w' r.
  { cbn. unfold_M. intros; simplify_eq. apply only_below_refl. }
  rewrite rm_entries_cons.
  assert (Hup : ∀ w0 w1, only_below (p ++ [n]) w0 w1 → only_below p w0 w1).
  { intros w0 w1. apply only_below_up. by apply prefix_app_r. }
  assert (Hone : ∀ r0 w0, rm_entries recur p [n] w = (r0, w0) → only_below p w w0).
  { intros r0 w0. cbn [rm_entries]. unfold_M.
    destruct (os_path_isdir w (p ++ [n])).
    - destruct (recur (p ++ [n]) w) as [[[]|e1] w1] eqn:E1; apply Hrec, Hup in E1;
        [|intros; by simplify_eq].
      destruct (os_rmdir (p ++ [n]) w1) as [[[]|e2] w2] eqn:E2;
        apply os_rmdir_only, Hup in E2; intros; simplify_eq;
        by apply (only_below_trans p w w1).
    - destruct (os_remove (p ++ [n]) w) as [[[]|e1] w1] eqn:E1;
        apply os_remove_only, Hup in E1; intros; by simplify_eq. }
  destruct (rm_entries recur p [n] w) as [[[]|e0] w0] eqn:E.
  - intros Hrest. eapply only_below_trans; [by eapply Hone|by eapply IH].
  - intros; simplify_eq. by eapply Hone.
Qed.

Lemma _rmtree_safe_fd_only (depth : nat) :
  ∀ p w w' r, _rmtree_safe_fd depth p w = (r, w') → only_below p w w'.
Proof.
  induction depth as [|depth IH]; intros p w w' r; cbn [_rmtree_safe_fd]; unfold_M.
  { intros; simplify_eq. apply only_below_refl. }
  destruct (os_listdir p w) as [[names|e0] w0] eqn:E; apply os_listdir_same in E as ->.
  - by apply rm_entries_only.
  - intros; simplify_eq. apply only_below_refl.
Qed.

Lemma shutil_rmtree_only (p : pathname) (w w' : world) (r : result unit) :
  shutil_rmtree p w = (r, w') → only_below p w w'.
Proof.
  unfold shutil_rmtree. destruct (stat w p);
    [|intros; simplify_eq; apply only_below_refl].
  unfold_M.
  destruct (_rmtree_safe_fd (recursion_limit w) p w) as [[[]|e0] w0] eqn:E;
    apply _rmtree_safe_fd_only in E; [|intros; by simplify_eq].
  intros H%os_rmdir_only. by apply (only_below_trans p w w0).
Qed.

Lemma path_rm_only (p : pathname) (project : Project) (w w' : world) (r : result unit) :
  path_rm p project w = (r, w') → only_below p w w'.
Proof.
  unfold path_rm. destruct (path_in_project p project); cbn [negb].
  2:{ unfold raise. intros; simplify_eq. apply only_below_refl. }
  unfold_M. destruct (os_path_isfile w p).
  - apply os_remove_only.
  - apply shutil_rmtree_only.
Qed.

Lemma shutil_copy2_frame (src dst : pathname) (w w' : world) (r : result unit) :
  shutil_copy2 src dst w = (r, w') → ∀ q, ¬ dst `prefix_of` q → stat w' q = stat w q.
Proof.
  unfold shutil_copy2, shutil_copyfile. unfold_M.
  set (dst' := if os_path_isdir w dst then _ else _).
  assert (Hdst' : dst `prefix_of` dst').
  { unfold dst'. destruct (os_path_isdir w dst); [by apply prefix_app_r|done]. }
  intros H q Hq. assert (Hne : q ≠ dst') by (by intros ->).
  destruct (samefile w src dst'); [by simplify_eq|].
  destruct (read_file src w) as [[data|e0] w0] eqn:E; apply read_file_same in E as ->.
  - by eapply write_file_frame.
  - by simplify_eq.
Qed.

(** ** Beyond the claims: what the path helpers leave alone *)

(** X1: in a file system that is a tree of regular files and directories
    (no symbolic links), whatever [path_rm] returns or raises, nothing is
    changed at a path that is not the given one or below it, and so nothing
    outside of the project; the file system is still a tree; the memo of
    [mkpath] and the recursion budget are as before. *)
Theorem path_rm_touches_only_below (p : pathname) (project : Project)
    (w w' : world) (r : result unit) :
  fs_wf w →
  path_rm p project w = (r, w') →
  (∀ q, ¬ p `prefix_of` q → stat w' q = stat w q)
  ∧ (∀ q, ¬ project_root project `prefix_of` q → stat w' q = stat w q)
  ∧ fs_wf w'
  ∧ path_created w' = path_created w
  ∧ recursion_limit w' = recursion_limit w.
Proof.
  intros Hwf H.
  destruct (path_rm_only _ _ _ _ _ H) as (Hbelow & Hwf' & Hmemo & Hrl).
  split_and!; auto.
  intros q Hq. destruct (decide (project_root project `prefix_of` p)) as [Hin|Hout].
  - apply Hbelow. intros Hp. apply Hq. by etrans.
  - apply path_in_project_false in Hout. revert H. unfold path_rm.
    rewrite Hout. unfold raise. simpl. intros; by simplify_eq.
Qed.

Lemma path_rm_touches_only_below_witness :
  stat (path_rm ["proj"; "src"] demo_project shallow_world).2 ["proj"; "index.html"]
  = stat shallow_world ["proj"; "index.html"]
  ∧ fs_wf (path_rm ["proj"; "src"] demo_project shallow_world).2.
Proof.
  destruct (path_rm_touches_only_below ["proj"; "src"] demo_project shallow_world
              (path_rm ["proj"; "src"] demo_project shallow_world).2
              (path_rm ["proj"; "src"] demo_project shallow_world).1)
    as (Hbelow & _ & Hwf & _).
  - apply (fs_wf_same_fs demo_world); [done|apply demo_world_wf].
  - apply surjective_pairing.
  - split; [|done]. apply Hbelow. intros [k Hk]. discriminate Hk.
Defined.

Lemma path_copy_runs (fromm to : pathname) (project : Project) (w : world) :
  project_root project `prefix_of` to →
  path_copy fromm to project w
  = if os_path_isfile w fromm then shutil_copy2 fromm to w else copy_tree fromm to w.
Proof.
  intros Hin%path_in_project_true. unfold path_copy. rewrite Hin. unfold_M. simpl.
  by destruct (os_path_isfile w fromm).
Qed.

Lemma path_copy_refused (fromm to : pathname) (project : Project) (w w' : world)
    (r : result unit) :
  ¬ project_root project `prefix_of` to →
  path_copy fromm to project w = (r, w') → w' = w.
Proof.
  intros Hout%path_in_project_false. unfold path_copy. rewrite Hout. unfold raise. simpl.
  intros; by simplify_eq.
Qed.

(** X2: in a file system that is a tree and has the project's root
    directory, whatever [path_copy] returns or raises (a copy that fails
    half way included), nothing outside of the project is changed. *)
Theorem path_copy_confined (fromm to : pathname) (project : Project)
    (w w' : world) (r : result unit) :
  fs_wf w → stat w (project_root project) = Some Dir →
  path_copy fromm to project w = (r, w') →
  ∀ q, ¬ project_root project `prefix_of` q → stat w' q = stat w q.
Proof.
  intros Hwf Hroot H q Hq.
  destruct (decide (project_root project `prefix_of` to)) as [Hin|Hout].
  2:{ by rewrite (path_copy_refused _ _ _ _ _ _ Hout H). }
  assert (Hto : ¬ to `prefix_of` q) by (intros Hp; apply Hq; by etrans).
  rewrite path_copy_runs in H by done. destruct (os_path_isfile w fromm).
  - by eapply shutil_copy2_frame.
  - destruct (copy_tree_rec_frame _ _ _ _ _ _ H q Hto) as [E|(Hp & Hn & _)]; [done|].
    destruct (prefix_weak_total q (project_root project) to) as [Hqr|Hrq]; try done.
    rewrite (fs_wf_prefix_dir w q (project_root project)) in Hn; done.
Qed.

Lemma path_copy_confined_witness :
  stat (path_copy ["proj"; "src"] ["proj"; "index.html"] demo_project demo_world).2
       ["etc"; "hosts"]
  = stat demo_world ["etc"; "hosts"].
Proof.
  apply (path_copy_confined ["proj"; "src"] ["proj"; "index.html"] demo_project demo_world
           (path_copy ["proj"; "src"] ["proj"; "index.html"] demo_project demo_world).2
           (path_copy ["proj"; "src"] ["proj"; "index.html"] demo_project demo_world).1).
  - apply demo_world_wf.
  - reflexivity.
  - apply surjective_pairing.
  - intros [k Hk]. discriminate Hk.
Defined.

(** X3: when neither of source and destination lies at or below the other,
    whatever [path_copy] returns or raises, the source and all below it are
    as before. *)
Theorem path_copy_source_intact (fromm to : pathname) (project : Project)
    (w w' : world) (r : result unit) :
  ¬ fromm `prefix_of` to → ¬ to `prefix_of` fromm →
  path_copy fromm to project w = (r, w') →
  ∀ x, stat w' (fromm ++ x) = stat w (fromm ++ x).
Proof.
  intros Hft Htf H x.
  destruct (decide (project_root project `prefix_of` to)) as [Hin|Hout].
  2:{ by rewrite (path_copy_refused _ _ _ _ _ _ Hout H). }
  assert (Hto : ¬ to `prefix_of` fromm ++ x).
  { replace to with (to ++ []) by apply app_nil_r. by apply apart_app. }
  rewrite path_copy_runs in H by done. destruct (os_path_isfile w fromm).
  - by eapply shutil_copy2_frame.
  - destruct (copy_tree_rec_frame _ _ _ _ _ _ H _ Hto) as [E|(Hp & _)]; [done|].
    destruct Hft. by eapply prefix_app_l.
Qed.

Lemma path_copy_source_intact_witness :
  stat (path_copy ["proj"; "src"] ["proj"; "backup"] demo_project demo_world).2
       (["proj"; "src"] ++ ["lib"; "a.js"])
  = stat demo_world (["proj"; "src"] ++ ["lib"; "a.js"]).
Proof.
  apply (path_copy_source_intact ["proj"; "src"] ["proj"; "backup"] demo_project demo_world
           (path_copy ["proj"; "src"] ["proj"; "backup"] demo_project demo_world).2
           (path_copy ["proj"; "src"] ["proj"; "backup"] demo_project demo_world).1).
  - intros [k Hk]. discriminate Hk.
  - intros [k Hk]. discriminate Hk.
  - apply surjective_pairing.
Defined.

(** ** Beyond the claims: how the path helpers compose *)

Lemma path_copy_dir_then_path_rm (fromm to : pathname) (project : Project) (w : world) :
  fs_wf w → project_root project `prefix_of` to →
  stat w to = None → stat w (dirname to) = Some Dir →
  stat w fromm = Some Dir → memo_ok w → ¬ fromm `prefix_of` to →
  (∀ x, stat w (fromm ++ x) = Some Dir → (length x < recursion_limit w)%nat) →
  tree_copyable (recursion_limit w) fromm to w
  ∧ ∃ w1 w2, path_copy fromm to project w = (Ok tt, w1)
             ∧ path_rm to project w1 = (Ok tt, w2)
             ∧ fs w2 = fs w
             ∧ path_created w2 = path_created w1
             ∧ recursion_limit w2 = recursion_limit w.
Proof.
  intros Hwf Hin Hto Hparent Hsrc Hmemo Hft Hdepth.
  assert (Hne : to ≠ []).
  { intros ->. destruct Hwf as [Hroot _]. congruence. }
  assert (Habove : ∀ q, q `prefix_of` to → q ≠ to → stat w q = Some Dir).
  { intros q Hq Hqne. destruct (pathname_snoc_cases to) as [->|(d & n & ->)]; [done|].
    rewrite dirname_snoc in Hparent.
    apply prefix_snoc_inv in Hq as [Hq|Hq]; [|done].
    by apply (fs_wf_prefix_dir w q d). }
  assert (Hcan : tree_copyable (recursion_limit w) fromm to w).
  { split_and!; try done.
    - intros [x ->]. rewrite fs_wf_absent_below in Hsrc; done.
    - intros q data Hq. destruct (decide (q = to)) as [->|Hqne]; [congruence|].
      by rewrite Habove.
    - intros n _ _. by apply fs_wf_absent_below. }
  split; [done|].
  destruct (path_copy_dir fromm to project w Hin Hcan)
    as (w1 & Hrun & Hwf1 & Hmemo1 & Hrl1 & Hup & Hbelow & Hout).
  destruct (path_rm_existing to project w1 Hwf1 Hin Hne)
    as (w2 & Hrm & _ & Hpc & Hrl2 & Hst2).
  { rewrite Hup by done. eauto. }
  { intros [|n x].
    - intros _. rewrite Hrl1. apply (Hdepth []). by rewrite app_nil_r.
    - rewrite Hbelow, (fs_wf_absent_below w to (n :: x)), overlay_None_r by done.
      destruct (nfs_free (n :: x)); [|done]. rewrite Hrl1. apply Hdepth. }
  exists w1, w2. split_and!; try done; [|congruence].
  apply map_eq. intros q. fold (stat w2 q). fold (stat w q). rewrite Hst2.
  case_bool_decide as Hq.
  - destruct Hq as [x ->]. by rewrite fs_wf_absent_below.
  - destruct (decide (q `prefix_of` to)) as [Hp|Hp]; [|by apply Hout].
    rewrite Hup by done. rewrite Habove; [done..|]. intros ->. by destruct Hq.
Qed.

(** X4: copying to a free destination of the project whose parent
    directory exists and removing the copy again gives the file system back
    as it was: for a regular-file source the whole state, for a directory
    source (under the conditions of a complete copy) the file system. *)
Theorem path_copy_then_path_rm (fromm to : pathname) (project : Project) (w : world) :
  fs_wf w → project_root project `prefix_of` to →
  stat w to = None → stat w (dirname to) = Some Dir →
  (∀ data, stat w fromm = Some (File data) →
           (path_copy fromm to project ≫= λ _, path_rm to project) w = (Ok tt, w))
  ∧ (stat w fromm = Some Dir → memo_ok w → ¬ fromm `prefix_of` to →
     (∀ x, stat w (fromm ++ x) = Some Dir → (length x < recursion_limit w)%nat) →
     ∃ w', (path_copy fromm to project ≫= λ _, path_rm to project) w = (Ok tt, w')
           ∧ fs w' = fs w).
Proof.
  intros Hwf Hin Hto Hparent.
  assert (Hne : to ≠ []).
  { intros ->. destruct Hwf as [Hroot _]. congruence. }
  split.
  - intros data Hsrc. unfold mbind, M_bind.
    rewrite (path_copy_file _ _ _ data) by (try done; congruence).
    apply path_in_project_true in Hin. unfold path_rm. rewrite Hin. unfold_M. simpl.
    assert (Hnew : stat (set_fs (<[to := File data]> (fs w)) w) to = Some (File data))
      by (by rewrite stat_set_fs_insert, decide_True).
    unfold os_path_isfile, os_remove. rewrite !Hnew. f_equal.
    unfold set_fs. cbn [fs path_created recursion_limit].
    rewrite delete_insert_eq, delete_id by done. by destruct w.
  - intros Hsrc Hmemo Hft Hdepth.
    destruct (path_copy_dir_then_path_rm fromm to project w)
      as (_ & w1 & w2 & Hrun & Hrm & Hfs & _); try done.
    exists w2. unfold mbind, M_bind. by rewrite Hrun, Hrm.
Qed.

Lemma path_copy_then_path_rm_witness :
  (path_copy ["etc"; "hosts"] ["proj"; "hosts"] demo_project
     ≫= λ _, path_rm ["proj"; "hosts"] demo_project) demo_world = (Ok tt, demo_world)
  ∧ ∃ w', (path_copy ["proj"; "src"] ["proj"; "backup"] demo_project
             ≫= λ _, path_rm ["proj"; "backup"] demo_project) demo_world = (Ok tt, w')
          ∧ fs w' = fs demo_world.
Proof.
  split.
  - destruct (path_copy_then_path_rm ["etc"; "hosts"] ["proj"; "hosts"]
                demo_project demo_world) as (H & _).
    + apply demo_world_wf.
    + by exists ["hosts"].
    + reflexivity.
    + reflexivity.
    + by apply (H "127.0.0.1 localhost").
  - destruct (path_copy_then_path_rm ["proj"; "src"] ["proj"; "backup"]
                demo_project demo_world) as (_ & H).
    + apply demo_world_wf.
    + by exists ["backup"].
    + reflexivity.
    + reflexivity.
    + apply H.
      * reflexivity.
      * apply demo_world_memo.
      * intros [k Hk]. discriminate Hk.
      * apply demo_world_depth.
Defined.

Lemma os_rmdir_ok (p : pathname) (w w' : world) :
  os_rmdir p w = (Ok tt, w') → stat w' p = None.
Proof.
  unfold os_rmdir. intros H. repeat case_match; simplify_eq.
  by rewrite stat_set_fs_delete, decide_True.
Qed.

Lemma path_rm_ok (p : pathname) (project : Project) (w w' : world) :
  path_rm p project w = (Ok tt, w') →
  project_root project `prefix_of` p ∧ is_Some (stat w p) ∧ stat w' p = None.
Proof.
  unfold path_rm. destruct (path_in_project p project) eqn:Hin; cbn [negb]; [|done].
  apply path_in_project_true in Hin. unfold_M. unfold os_path_isfile.
  destruct (stat w p) as [[data|]|] eqn:Hp.
  - unfold os_remove. rewrite Hp. intros; simplify_eq. split_and!; [done|eauto|].
    by rewrite stat_set_fs_delete, decide_True.
  - unfold shutil_rmtree. rewrite Hp. unfold_M.
    destruct (_rmtree_safe_fd _ p w) as [[[]|e0] w0]; [|done].
    intros H%os_rmdir_ok. split_and!; [done|eauto|done].
  - unfold shutil_rmtree. by rewrite Hp.
Qed.

(** X5: [path_rm] is not idempotent.  In a file system that is a tree, after
    a call that returned normally, having removed what was at the path, the
    same call again raises [FileNotFoundError] and changes nothing. *)
Theorem path_rm_twice (p : pathname) (project : Project) (w w' : world) :
  fs_wf w →
  path_rm p project w = (Ok tt, w') →
  path_rm p project w' = (Raise (os_error ENOENT), w').
Proof.
  intros Hwf Hrm.
  destruct (path_rm_ok _ _ _ _ Hrm) as (Hin & Hex & Hgone).
  destruct (path_rm_only _ _ _ _ _ Hrm) as (Hframe & _).
  apply path_in_project_true in Hin. unfold path_rm. rewrite Hin. unfold_M. simpl.
  unfold os_path_isfile, shutil_rmtree. rewrite !Hgone. do 2 f_equal.
  unfold lookup_errno.
  destruct (existsb _ _) eqn:E; [|done]. exfalso.
  apply existsb_exists in E as (k & Hk%in_seq & Hfile).
  unfold os_path_isfile in Hfile. rewrite Hframe in Hfile.
  2:{ intros Hpre%prefix_length. rewrite length_take in Hpre. lia. }
  rewrite (fs_wf_above w (take k p) (drop k p)) in Hfile; [done..| |].
  - by rewrite take_drop.
  - intros Hd%(f_equal length). rewrite length_drop in Hd. simpl in Hd. lia.
Qed.

Lemma path_rm_twice_witness :
  ∃ w', path_rm ["proj"; "src"] demo_project demo_world = (Ok tt, w')
        ∧ path_rm ["proj"; "src"] demo_project w' = (Raise (os_error ENOENT), w').
Proof.
  destruct (path_rm_existing ["proj"; "src"] demo_project demo_world)
    as (w' & Hrm & _).
  - apply demo_world_wf.
  - by exists ["src"].
  - discriminate.
  - by exists Dir.
  - apply demo_world_depth.
  - exists w'. split; [exact Hrm|].
    apply (path_rm_twice ["proj"; "src"] demo_project demo_world w');
      [apply demo_world_wf|exact Hrm].
Defined.

(** ** Beyond the claims: edge cases of [path_copy] *)

(** X6: copying a regular file of the project onto itself raises
    [SameFileError] and leaves the file, and everything else, as it was. *)
Theorem path_copy_onto_itself (p : pathname) (project : Project) (w : world)
    (data : string) :
  project_root project `prefix_of` p → stat w p = Some (File data) →
  ∃ e, path_copy p p project w = (Raise e, w) ∧ exn_class e = SameFileError.
Proof.
  intros Hin Hp. rewrite path_copy_runs by done.
  unfold os_path_isfile. rewrite Hp.
  unfold shutil_copy2, shutil_copyfile, samefile, os_path_isdir, os_path_exists.
  rewrite Hp. rewrite (bool_decide_eq_false_2 (Some (File data) = Some Dir)) by done.
  rewrite !bool_decide_eq_true_2 by eauto. simpl. eauto.
Qed.

Lemma path_copy_onto_itself_witness :
  ∃ e, path_copy ["proj"; "index.html"] ["proj"; "index.html"] demo_project demo_world
       = (Raise e, demo_world)
       ∧ exn_class e = SameFileError.
Proof.
  apply (path_copy_onto_itself ["proj"; "index.html"] demo_project demo_world "hello dot").
  - by exists ["index.html"].
  - reflexivity.
Defined.

(** X7: a source at which nothing exists is handed to [copy_tree]: the call
    raises [DistutilsFileError], which is no [OSError], and changes
    nothing. *)
Theorem path_copy_missing_source (fromm to : pathname) (project : Project) (w : world) :
  project_root project `prefix_of` to → stat w fromm = None →
  (0 < recursion_limit w)%nat →
  ∃ e, path_copy fromm to project w = (Raise e, w)
       ∧ exn_class e = DistutilsFileError
       ∧ issubclass (exn_class e) OSError = false.
Proof.
  intros Hin Hsrc Hrl. rewrite path_copy_runs by done.
  unfold os_path_isfile. rewrite Hsrc. unfold copy_tree.
  destruct (recursion_limit w) as [|depth]; [lia|].
  cbn [copy_tree_rec]. unfold_M. unfold os_path_isdir. rewrite Hsrc.
  rewrite bool_decide_eq_false_2 by done. simpl. eauto.
Qed.

Lemma path_copy_missing_source_witness :
  ∃ e, path_copy ["proj"; "dist"] ["proj"; "backup"] demo_project demo_world
       = (Raise e, demo_world)
       ∧ exn_class e = DistutilsFileError
       ∧ issubclass (exn_class e) OSError = false.
Proof.
  apply (path_copy_missing_source ["proj"; "dist"] ["proj"; "backup"]
           demo_project demo_world).
  - by exists ["backup"].
  - reflexivity.
  - vm_compute. lia.
Defined.

(** ** The memo of [mkpath] *)

Lemma os_mkdir_memo (p : pathname) (w w' : world) (r : result unit) :
  os_mkdir p w = (r, w') → path_created w' = path_created w.
Proof. unfold os_mkdir. intros H. repeat case_match; by simplify_eq. Qed.

Lemma write_file_memo (p : pathname) (data : string) (w w' : world) (r : result unit) :
  write_file p data w = (r, w') → path_created w' = path_created w.
Proof. unfold write_file. intros H. repeat case_match; by simplify_eq. Qed.

Lemma os_remove_memo (p : pathname) (w w' : world) (r : result unit) :
  os_remove p w = (r, w') → path_created w' = path_created w.
Proof. unfold os_remove. intros H. repeat case_match; by simplify_eq. Qed.

Lemma mkpath_tails_memo (tails : list string) :
  ∀ head w w' r, mkpath_tails head tails w = (r, w') →
    path_created w ⊆ path_created w'
    ∧ (r = Ok tt → tails ≠ [] → head ++ tails ∈ path_created w').
Proof.
  induction tails as [|d ds IH]; intros head w w' r; cbn [mkpath_tails]; unfold_M.
  { intros; by simplify_eq. }
  replace (head ++ d :: ds) with ((head ++ [d]) ++ ds) by by rewrite <- app_assoc.
  assert (Hlast : ∀ w0 w1 r1, mkpath_tails (head ++ [d]) ds w0 = (r1, w1) →
            head ++ [d] ∈ path_created w0 →
            path_created w0 ⊆ path_created w1
            ∧ (r1 = Ok tt → d :: ds ≠ [] → (head ++ [d]) ++ ds ∈ path_created w1)).
  { intros w0 w1 r1 Hrest Hin. destruct (IH _ _ _ _ Hrest) as [Hsub Hadd].
    split; [done|]. intros Hr _. destruct ds as [|d' ds']; [|by apply Hadd].
    rewrite app_nil_r. by apply Hsub. }
  case_bool_decide as Hc; [intros Hrest; by apply (Hlast _ _ _ Hrest)|].
  unfold try_except.
  destruct (os_mkdir (head ++ [d]) w) as [[[]|e0] w0] eqn:E.
  - intros Hrest. apply os_mkdir_memo in E.
    destruct (Hlast _ _ _ Hrest) as [Hsub Hadd].
    { cbn. apply elem_of_union_l. by apply elem_of_singleton. }
    split; [|done]. etrans; [|exact Hsub]. cbn. rewrite E. apply union_subseteq_r.
  - apply os_mkdir_raise_same in E as ->.
    destruct (issubclass _ _); [|intros; by simplify_eq].
    destruct (negb _); [intros; by simplify_eq|].
    intros Hrest. destruct (Hlast _ _ _ Hrest) as [Hsub Hadd].
    { cbn. apply elem_of_union_l. by apply elem_of_singleton. }
    split; [|done]. etrans; [|exact Hsub]. cbn. apply union_subseteq_r.
Qed.

Lemma mkpath_memo (name : pathname) (w w' : world) (r : result unit) :
  fs_wf w → mkpath name w = (r, w') →
  path_created w ⊆ path_created w'
  ∧ (r = Ok tt → stat w name ≠ Some Dir → name ∈ path_created w').
Proof.
  intros Hwf. unfold mkpath. unfold_M. unfold os_path_isdir at 1.
  case_bool_decide as Hd; [intros; by simplify_eq|].
  case_bool_decide as Hc; [intros; by simplify_eq|].
  intros H. destruct (mkpath_tails_memo _ _ _ _ _ H) as [Hsub Hadd].
  split; [done|]. intros Hr _. rewrite take_drop in Hadd. apply Hadd; [done|].
  destruct (deepest_dir_spec w name (length name - 1) Hwf) as (Hle & _).
  assert (Hlen : (0 < length name)%nat).
  { destruct name; simpl; [|lia]. destruct Hwf as [Hroot _]. congruence. }
  intros Hnil%(f_equal length). rewrite length_drop in Hnil. simpl in Hnil. lia.
Qed.

Lemma copy_file_memo (src dst : pathname) (w w' : world) (r : result unit) :
  copy_file src dst w = (r, w') → path_created w' = path_created w.
Proof.
  unfold copy_file, _copy_file_contents. unfold_M.
  destruct (negb _); [intros; by simplify_eq|].
  set (dst' := if os_path_isdir w dst then _ else _).
  intros H.
  destruct (wrap_os_error (read_file src) _ w) as [[data|e0] w0] eqn:E1;
    apply wrap_os_error_state in E1 as [r0 ->%read_file_same]; [|by simplify_eq].
  destruct (os_path_exists w dst').
  - destruct (wrap_os_error (os_remove dst') _ w) as [[[]|e0] w1] eqn:E2;
      apply wrap_os_error_state in E2 as [r1 E2%os_remove_memo].
    + apply wrap_os_error_state in H as [r2 H%write_file_memo]. congruence.
    + by simplify_eq.
  - by apply wrap_os_error_state in H as [r2 H%write_file_memo].
Qed.

Lemma copy_names_memo_mono (recur : pathname → pathname → M unit)
    (src dst : pathname) (names : list string) :
  (∀ s d w w' r, recur s d w = (r, w') → path_created w ⊆ path_created w') →
  ∀ w w' r, copy_names recur src dst names w = (r, w') →
            path_created w ⊆ path_created w'.
Proof.
  intros Hrec. induction names as [|n rest IH]; intros w w' r.
  { cbn. unfold_M. intros; by simplify_eq. }
  rewrite copy_names_cons.
  assert (Hone : ∀ r0 w0, copy_names recur src dst [n] w = (r0, w0) →
                          path_created w ⊆ path_created w0).
  { intros r0 w0. cbn [copy_names]. unfold_M.
    destruct (String.prefix ".nfs" n); [intros; by simplify_eq|].
    destruct (os_path_isdir w (src ++ [n])).
    - destruct (recur _ _ w) as [[[]|e0] w1] eqn:E; intros; simplify_eq; by eapply Hrec.
    - destruct (copy_file _ _ w) as [[[]|e0] w1] eqn:E; intros; simplify_eq;
        by rewrite (copy_file_memo _ _ _ _ _ E). }
  destruct (copy_names recur src dst [n] w) as [[[]|e0] w0] eqn:E.
  - intros Hrest. etrans; [by eapply Hone|by eapply IH].
  - intros; simplify_eq. by eapply Hone.
Qed.

Lemma mkpath_memo_mono (name : pathname) (w w' : world) (r : result unit) :
  mkpath name w = (r, w') → path_created w ⊆ path_created w'.
Proof.
  unfold mkpath. unfold_M.
  destruct (os_path_isdir w name); [intros; by simplify_eq|].
  case_bool_decide as Hc; [intros; by simplify_eq|].
  intros H. by destruct (mkpath_tails_memo _ _ _ _ _ H).
Qed.

Lemma copy_tree_rec_memo_mono (depth : nat) :
  ∀ src dst w w' r, copy_tree_rec depth src dst w = (r, w') →
                    path_created w ⊆ path_created w'.
Proof.
  induction depth as [|depth IH]; intros src dst w w' r;
    cbn [copy_tree_rec]; unfold_M.
  { intros; by simplify_eq. }
  destruct (negb _); [intros; by simplify_eq|].
  destruct (wrap_os_error (os_listdir src) _ w) as [[names|e0] w0] eqn:E1;
    apply wrap_os_error_state in E1 as [r0 ->%os_listdir_same];
    [|intros; by simplify_eq].
  destruct (mkpath dst w) as [[[]|e0] w1] eqn:E2; apply mkpath_memo_mono in E2;
    [|intros; by simplify_eq].
  intros Hrest. etrans; [exact E2|]. by eapply copy_names_memo_mono.
Qed.

Section memo_grows.
Variables (recur : pathname → pathname → M unit) (depth : nat).
Hypothesis recur_spec : ∀ src dst w,
  tree_copyable depth src dst w →
  ∃ w', recur src dst w = (Ok tt, w') ∧ tree_copied src dst w w'.
Hypothesis recur_mono : ∀ s d w w' r,
  recur s d w = (r, w') → path_created w ⊆ path_created w'.
Hypothesis recur_grows : ∀ src dst w w',
  tree_copyable depth src dst w → stat w dst = None →
  recur src dst w = (Ok tt, w') →
  ∀ r, nfs_free r = true → stat w (src ++ r) = Some Dir → dst ++ r ∈ path_created w'.

Variables (src dst : pathname).
Hypothesis Hsd : ¬ src `prefix_of` dst.
Hypothesis Hds : ¬ dst `prefix_of` src.

Lemma copy_names_grows (names : list string) :
  ∀ w w', NoDup names → fs_wf w → memo_ok w → stat w dst = Some Dir →
    (∀ n, n ∈ names → is_Some (stat w (src ++ [n]))) →
    (∀ n r, n ∈ names → stat w (src ++ n :: r) = Some Dir → (length r < depth)%nat) →
    (∀ n, n ∈ names → String.prefix ".nfs" n = false → stat w (dst ++ [n]) = None) →
    copy_names recur src dst names w = (Ok tt, w') →
    ∀ n r, n ∈ names → nfs_free (n :: r) = true → stat w (src ++ n :: r) = Some Dir →
           dst ++ n :: r ∈ path_created w'.
Proof.
  induction names as [|n0 rest IH];
    intros w w' Hnd Hwf Hmemo Hdst Hsrc Hdepth Hfree Hrun n r Hn Hnfs Hdir.
  { by apply not_elem_of_nil in Hn. }
  apply NoDup_cons in Hnd as [Hn0 Hnd].
  destruct (copy_names_one recur depth recur_spec src dst Hsd Hds n0 w)
    as (w1 & Hrun1 & Hwf1 & Hmemo1 & Hrl1 & Hin1 & Hout1); try done.
  { apply Hsrc. left. }
  { intros x. apply Hdepth. left. }
  { apply Hfree. left. }
  rewrite copy_names_cons, Hrun1 in Hrun.
  assert (Hsrc1 : ∀ x, stat w1 (src ++ x) = stat w (src ++ x)).
  { intros x. apply Hout1. intros Hp. by apply (apart_app dst src [n0] x). }
  assert (Hdst1 : ∀ m x, m ≠ n0 → stat w1 (dst ++ m :: x) = stat w (dst ++ m :: x)).
  { intros m x Hm. apply Hout1.
    replace (dst ++ [n0]) with (dst ++ n0 :: []) by done. by apply apart_siblings. }
  destruct (decide (n = n0)) as [->|Hne].
  - eapply copy_names_memo_mono; [exact recur_mono|exact Hrun|].
    rewrite nfs_free_cons in Hnfs. apply andb_true_iff in Hnfs as [Hn0free Hrfree].
    apply negb_true_iff in Hn0free.
    assert (Hd0 : stat w (src ++ [n0]) = Some Dir).
    { apply (fs_wf_prefix_dir w _ (src ++ n0 :: r)); [done..|].
      exists r. by rewrite <- app_assoc. }
    revert Hrun1. cbn [copy_names]. unfold_M. rewrite Hn0free.
    unfold os_path_isdir. rewrite bool_decide_eq_true_2 by done.
    destruct (recur (src ++ [n0]) (dst ++ [n0]) w) as [[[]|e0] w0] eqn:E; [|done].
    intros; simplify_eq.
    replace (dst ++ n0 :: r) with ((dst ++ [n0]) ++ r) by by rewrite <- app_assoc.
    eapply recur_grows; [|by apply Hfree; [left|]|exact E|done|by rewrite <- app_assoc].
    split_and!; try done.
    + intros x. rewrite <- app_assoc. apply Hdepth. left.
    + by apply apart_app.
    + by apply apart_app.
    + intros q data [Hq| ->]%prefix_snoc_inv.
      * by rewrite (fs_wf_prefix_dir w q dst).
      * rewrite Hfree; [done|left|done].
    + intros n' _ _. apply fs_wf_absent_below; [done|]. apply Hfree; [left|done].
  - assert (Hrest : n ∈ rest) by (by apply elem_of_cons in Hn as [?|?]).
    eapply (IH w1 w'); try done.
    + rewrite Hout1; [done|]. apply prefix_snoc_not.
    + intros m Hm. rewrite Hsrc1. apply Hsrc. by right.
    + intros m x Hm. rewrite Hsrc1. apply Hdepth. by right.
    + intros m Hm Hmfree. rewrite Hdst1 by (by intros ->). apply Hfree; [by right|done].
    + by rewrite Hsrc1.
Qed.
End memo_grows.

Lemma copy_tree_rec_grows (depth : nat) :
  ∀ src dst w w',
    tree_copyable depth src dst w → stat w dst = None →
    copy_tree_rec depth src dst w = (Ok tt, w') →
    ∀ r, nfs_free r = true → stat w (src ++ r) = Some Dir → dst ++ r ∈ path_created w'.
Proof.
  induction depth as [|depth IH];
    intros src dst w w' Hcan Hnone Hrun r Hnfs Hdir.
  { destruct Hcan as (_ & _ & Hsrc & Hdepth & _).
    specialize (Hdepth []). rewrite app_nil_r in Hdepth. specialize (Hdepth Hsrc).
    simpl in Hdepth. lia. }
  pose proof Hcan as (Hwf & Hmemo & Hsrc & Hdepth & Hsd & Hds & Hnofile & Hfree).
  destruct (os_listdir_spec src w Hsrc) as (names & Hls & Hnd & Hnames).
  destruct (mkpath_spec dst w Hwf Hmemo Hnofile) as (w1 & Hmk & Hwf1 & Hmemo1 & Hrl1 & Hst1).
  assert (Hsrc1 : ∀ x, stat w1 (src ++ x) = stat w (src ++ x)).
  { intros x. rewrite Hst1, bool_decide_eq_false_2; [done|].
    intros Hp. apply Hsd. by eapply prefix_app_l. }
  assert (Hdst1 : ∀ n x, stat w1 (dst ++ n :: x) = stat w (dst ++ n :: x)).
  { intros n x. rewrite Hst1, bool_decide_eq_false_2; [done|]. apply not_prefix_longer. }
  revert Hrun. cbn [copy_tree_rec]. unfold_M. unfold os_path_isdir, wrap_os_error.
  rewrite bool_decide_eq_true_2 by done. cbn [negb]. rewrite Hls. cbn [try_except].
  rewrite Hmk. intros Hrun.
  destruct r as [|n r].
  - rewrite app_nil_r.
    eapply copy_names_memo_mono; [apply copy_tree_rec_memo_mono|exact Hrun|].
    destruct (mkpath_memo dst w w1 (Ok tt) Hwf Hmk) as [_ Hadd]. apply Hadd; congruence.
  - eapply (copy_names_grows (copy_tree_rec depth) depth); try exact Hrun; try done.
    + intros. by eapply copy_tree_rec_spec.
    + apply copy_tree_rec_memo_mono.
    + by rewrite Hst1, bool_decide_eq_true_2.
    + intros m Hm. rewrite Hsrc1. by apply Hnames.
    + intros m x _. rewrite Hsrc1. intros Hd%Hdepth. simpl in Hd. lia.
    + intros m Hm Hmfree. rewrite Hdst1. apply Hfree; [done|]. by apply Hnames.
    + apply Hnames. exists Dir.
      apply (fs_wf_prefix_dir w _ (src ++ n :: r)); [done..|].
      exists r. by rewrite <- app_assoc.
    + by rewrite Hsrc1.
Qed.

(** ** Beyond the claims: copying again after a removal *)

Lemma copy_file_stale (src dst : pathname) (data : string) (w : world) :
  stat w src = Some (File data) → stat w dst = None →
  stat w (dirname dst) ≠ Some Dir →
  ∃ e, copy_file src dst w = (Raise e, w) ∧ exn_class e = DistutilsFileError.
Proof.
  intros Hsrc Hdst Hparent. unfold copy_file, _copy_file_contents, wrap_os_error.
  unfold_M. unfold os_path_isfile, os_path_isdir, os_path_exists, read_file, write_file.
  repeat (rewrite ?Hsrc, ?Hdst; simpl).
  unfold os_path_isdir. rewrite bool_decide_eq_false_2 by done.
  cbn [try_except]. rewrite os_error_is_OSError. eauto.
Qed.

Section stale_memo.
Variables (recur : pathname → pathname → M unit) (depth : nat).
Hypothesis recur_stale : ∀ src dst w,
  fs_wf w → stat w src = Some Dir → stat w dst = None →
  (∀ r, nfs_free r = true → stat w (src ++ r) = Some Dir → dst ++ r ∈ path_created w) →
  (∀ r, stat w (src ++ r) = Some Dir → (length r < depth)%nat) →
  (recur src dst w = (Ok tt, w)
   ∧ ∀ r data, nfs_free r = true → stat w (src ++ r) ≠ Some (File data))
  ∨ (∃ e, recur src dst w = (Raise e, w) ∧ exn_class e = DistutilsFileError).

Variables (src dst : pathname) (w : world).
Hypothesis Hwf : fs_wf w.
Hypothesis Hdst : stat w dst = None.

Lemma copy_names_stale (names : list string) :
  (∀ n, n ∈ names → is_Some (stat w (src ++ [n]))) →
  (∀ n r, n ∈ names → nfs_free (n :: r) = true → stat w (src ++ n :: r) = Some Dir →
          dst ++ n :: r ∈ path_created w) →
  (∀ n r, n ∈ names → stat w (src ++ n :: r) = Some Dir → (length r < depth)%nat) →
  (copy_names recur src dst names w = (Ok tt, w)
   ∧ ∀ n r data, n ∈ names → nfs_free (n :: r) = true →
                 stat w (src ++ n :: r) ≠ Some (File data))
  ∨ (∃ e, copy_names recur src dst names w = (Raise e, w)
          ∧ exn_class e = DistutilsFileError).
Proof.
  induction names as [|n rest IH]; intros Hsrc Hmemo Hdepth.
  { left. split; [done|]. by intros n r data ?%not_elem_of_nil. }
  rewrite copy_names_cons.
  assert (Hone : (copy_names recur src dst [n] w = (Ok tt, w)
                  ∧ ∀ r data, nfs_free (n :: r) = true →
                              stat w (src ++ n :: r) ≠ Some (File data))
                 ∨ (∃ e, copy_names recur src dst [n] w = (Raise e, w)
                         ∧ exn_class e = DistutilsFileError)).
  { cbn [copy_names]. unfold_M.
    destruct (String.prefix ".nfs" n) eqn:Hnfs.
    { left. split; [done|]. intros r data. by rewrite nfs_free_cons, Hnfs. }
    destruct (Hsrc n) as [[data|] Hn]; [left| |].
    - unfold os_path_isdir. rewrite Hn. rewrite bool_decide_eq_false_2 by done.
      destruct (copy_file_stale (src ++ [n]) (dst ++ [n]) data w) as (e & -> & He);
        [done|by apply fs_wf_absent_below|by rewrite dirname_snoc, Hdst|].
      right. eauto.
    - unfold os_path_isdir. rewrite bool_decide_eq_true_2 by done.
      destruct (recur_stale (src ++ [n]) (dst ++ [n]) w) as [[-> Hnone]|(e & -> & He)];
        try done.
      + by apply fs_wf_absent_below.
      + intros r Hr Hd. rewrite <- app_assoc. apply Hmemo; [left| |by rewrite <- app_assoc in Hd].
        by rewrite nfs_free_cons, Hnfs.
      + intros r. rewrite <- app_assoc. apply Hdepth. left.
      + left. split; [done|]. intros r data Hr.
        replace (src ++ n :: r) with ((src ++ [n]) ++ r) by by rewrite <- app_assoc.
        apply Hnone. by rewrite nfs_free_cons, Hnfs in Hr.
      + right. eauto. }
  destruct Hone as [[-> Hnone]|(e & -> & He)]; [|right; eauto].
  destruct IH as [[-> Hrest]|(e & -> & He)].
  - intros m Hm. apply Hsrc. by right.
  - intros m r Hm. apply Hmemo. by right.
  - intros m r Hm. apply Hdepth. by right.
  - left. split; [done|]. intros m r data [->|Hm]%elem_of_cons; [apply Hnone|by apply Hrest].
  - right. eauto.
Qed.
End stale_memo.

Lemma copy_tree_rec_stale (depth : nat) :
  ∀ src dst w,
    fs_wf w → stat w src = Some Dir → stat w dst = None →
    (∀ r, nfs_free r = true → stat w (src ++ r) = Some Dir → dst ++ r ∈ path_created w) →
    (∀ r, stat w (src ++ r) = Some Dir → (length r < depth)%nat) →
    (copy_tree_rec depth src dst w = (Ok tt, w)
     ∧ ∀ r data, nfs_free r = true → stat w (src ++ r) ≠ Some (File data))
    ∨ (∃ e, copy_tree_rec depth src dst w = (Raise e, w)
            ∧ exn_class e = DistutilsFileError).
Proof.
  induction depth as [|depth IH]; intros src dst w Hwf Hsrc Hdst Hmemo Hdepth.
  { specialize (Hdepth []). rewrite app_nil_r in Hdepth. specialize (Hdepth Hsrc).
    simpl in Hdepth. lia. }
  destruct (os_listdir_spec src w Hsrc) as (names & Hls & _ & Hnames).
  assert (Hrun : copy_tree_rec (S depth) src dst w
                 = copy_names (copy_tree_rec depth) src dst names w).
  { cbn [copy_tree_rec]. unfold_M. unfold os_path_isdir at 1, wrap_os_error.
    rewrite bool_decide_eq_true_2 by done. cbn [negb]. rewrite Hls. cbn [try_except].
    unfold mkpath. unfold_M. unfold os_path_isdir. rewrite Hdst.
    rewrite bool_decide_eq_false_2 by done.
    rewrite bool_decide_eq_true_2; [done|].
    specialize (Hmemo []). rewrite !app_nil_r in Hmemo. by apply Hmemo. }
  rewrite Hrun.
  destruct (copy_names_stale (copy_tree_rec depth) depth IH src dst w Hwf Hdst names)
    as [[-> Hnone]|(e & -> & He)].
  - intros n Hn. by apply Hnames.
  - intros n r _. apply Hmemo.
  - intros n r _ Hd%Hdepth. simpl in Hd. lia.
  - left. split; [done|]. intros [|n r] data Hr.
    + rewrite app_nil_r. congruence.
    + destruct (stat w (src ++ n :: r)) as [[data'|]|] eqn:E; [|done..].
      exfalso. apply (Hnone n r data'); [|done..].
      apply Hnames. destruct r as [|n' r]; [by rewrite E|]. exists Dir.
      apply (fs_wf_above w (src ++ [n]) (n' :: r)); [done| |done].
      rewrite <- app_assoc. cbn [app]. by rewrite E.
  - right. eauto.
Qed.

(** X9: a directory of the project that holds a regular file can be copied
    to a free destination once; after [path_rm] has removed the copy, the
    file system is as before, but [mkpath] still remembers the destination
    as created, so the same [path_copy] now raises [DistutilsFileError] and
    copies nothing. *)
Theorem path_copy_again_after_path_rm (fromm to : pathname) (project : Project)
    (w : world) (n data : string) :
  fs_wf w → memo_ok w → project_root project `prefix_of` to →
  stat w to = None → stat w (dirname to) = Some Dir →
  stat w fromm = Some Dir → ¬ fromm `prefix_of` to →
  (∀ x, stat w (fromm ++ x) = Some Dir → (length x < recursion_limit w)%nat) →
  stat w (fromm ++ [n]) = Some (File data) → String.prefix ".nfs" n = false →
  ∃ w1 w2 e,
    path_copy fromm to project w = (Ok tt, w1)
    ∧ path_rm to project w1 = (Ok tt, w2)
    ∧ fs w2 = fs w
    ∧ path_copy fromm to project w2 = (Raise e, w2)
    ∧ exn_class e = DistutilsFileError.
Proof.
  intros Hwf Hmemo Hin Hto Hparent Hsrc Hft Hdepth Hfile Hnfs.
  destruct (path_copy_dir_then_path_rm fromm to project w)
    as (Hcan & w1 & w2 & Hrun & Hrm & Hfs & Hpc & Hrl); try done.
  assert (Hst : ∀ q, stat w2 q = stat w q) by (intros q; unfold stat; by rewrite Hfs).
  assert (Hgrow : ∀ r, nfs_free r = true → stat w (fromm ++ r) = Some Dir →
                       to ++ r ∈ path_created w1).
  { apply (copy_tree_rec_grows (recursion_limit w)); [done..|].
    rewrite path_copy_runs in Hrun by done.
    unfold os_path_isfile in Hrun. by rewrite Hsrc in Hrun. }
  exists w1, w2.
  destruct (copy_tree_rec_stale (recursion_limit w2) fromm to w2)
    as [[Hok Hnone]|(e & Hraise & He)].
  - by apply (fs_wf_same_fs w).
  - by rewrite Hst.
  - by rewrite Hst.
  - intros r Hr Hd. rewrite Hpc. apply Hgrow; [done|]. by rewrite <- Hst.
  - intros r. rewrite Hst, Hrl. apply Hdepth.
  - destruct (Hnone [n] data); [by rewrite nfs_free_cons, Hnfs|by rewrite Hst].
  - exists e. split_and!; try done.
    rewrite path_copy_runs by done. unfold os_path_isfile. by rewrite Hst, Hsrc.
Qed.

Lemma path_copy_again_after_path_rm_witness :
  ∃ w1 w2 e,
    path_copy ["proj"; "src"] ["proj"; "backup"] demo_project demo_world = (Ok tt, w1)
    ∧ path_rm ["proj"; "backup"] demo_project w1 = (Ok tt, w2)
    ∧ fs w2 = fs demo_world
    ∧ path_copy ["proj"; "src"] ["proj"; "backup"] demo_project w2 = (Raise e, w2)
    ∧ exn_class e = DistutilsFileError.
Proof.
  apply (path_copy_again_after_path_rm ["proj"; "src"] ["proj"; "backup"] demo_project
           demo_world "index.html" "hello src").
  - apply demo_world_wf.
  - apply demo_world_memo.
  - by exists ["backup"].
  - reflexivity.
  - reflexivity.
  - reflexivity.
  - intros [k Hk]. discriminate Hk.
  - apply demo_world_depth.
  - reflexivity.
  - reflexivity.
Defined.
